(** * Transactional mutation log with rollback (runtime/transaction.cc)

    A shallow embedding of [art::Transaction] and of its four undo logs,
    followed by the properties the specification states about them.

    Conventions of the embedding.
    - A [mirror::Object*] (object, array, string, dex cache or class) is the
      integer value of the pointer; [nullptr] is [0].
    - A [uint64_t], [uint32_t], [int8_t], ... is a [Z]; every conversion the
      source performs between them is written out with the functions of
      module [Int].
    - [std::map] containers are finite maps ([gmap]) traversed in increasing
      key order ([entries]); [std::list] containers are lists.
    - [CHECK], [DCHECK] and [LOG(FATAL)] abort the process: a function that
      can reach one returns an [option], [None] standing for the abort.
    - What the code asks of its collaborators (the object accessors, the
      intern table, the dex cache) is recorded as a list of [Call]s; the
      collaborators themselves are not part of transaction.cc.
    - The embedding is of one thread: [log_lock_], the intern table lock and
      the assertions on them are left out. *)

From Stdlib Require Import ZArith Lia Bool.
From stdpp Require Import base option list sorting gmap strings.

Open Scope Z_scope.

(** ** Fixed-width integers *)

Module Int.

(** Conversion to an unsigned integer type of [w] bits. *)
Definition to_unsigned (w z : Z) : Z := z mod 2 ^ w.

(** Conversion to a signed (two's complement) integer type of [w] bits. *)
Definition to_signed (w z : Z) : Z :=
  (z + 2 ^ (w - 1)) mod 2 ^ w - 2 ^ (w - 1).

Definition to_uint8 := to_unsigned 8.
Definition to_int8 := to_signed 8.
Definition to_uint16 := to_unsigned 16.
Definition to_int16 := to_signed 16.
Definition to_uint32 := to_unsigned 32.
Definition to_int32 := to_signed 32.
Definition to_uint64 := to_unsigned 64.
Definition to_int64 := to_signed 64.

Definition is_unsigned (w z : Z) : Prop := 0 <= z < 2 ^ w.
Definition is_signed (w z : Z) : Prop := - 2 ^ (w - 1) <= z < 2 ^ (w - 1).

End Int.

(** ** Integer to floating-point conversion

    [static_cast<float>(v)] and [static_cast<double>(v)] of a [uint64_t] are
    value conversions: the result is the floating-point number nearest to the
    integer [v] (ties to even, the rounding of the targets of the runtime;
    an integer that is representable converts exactly whatever the
    rounding).  A floating-point number is represented by its IEEE-754 bit
    pattern.  [p] is the precision (24 or 53, the hidden bit included) and
    [bias] the exponent bias (127 or 1023). *)

Module Fp.

Definition of_uint64 (p bias v : Z) : Z :=
  if v =? 0 then 0
  else
    let e := Z.log2 v in
    let m :=
      if e <? p then v * 2 ^ (p - 1 - e)
      else
        let shift := e - (p - 1) in
        let q := v / 2 ^ shift in
        let r := v mod 2 ^ shift in
        let half := 2 ^ (shift - 1) in
        if (half <? r) || ((r =? half) && Z.odd q) then q + 1 else q in
    (e + bias) * 2 ^ (p - 1) + (m - 2 ^ (p - 1)).

Definition float_of_uint64 (v : Z) : Z := of_uint64 24 127 v.
Definition double_of_uint64 (v : Z) : Z := of_uint64 53 1023 v.

End Fp.

(** ** Collaborators *)

(** [Primitive::Type]. *)
Inductive PrimitiveType : Set :=
  | kPrimNot | kPrimBoolean | kPrimByte | kPrimChar | kPrimShort
  | kPrimInt | kPrimLong | kPrimFloat | kPrimDouble | kPrimVoid.

(** The calls transaction.cc makes into the object model, the intern table
    and the dex cache while it undoes its logs.  The first argument of a
    field setter tells the [...Volatile] variant from the plain one.  The
    value of a [SetWithoutChecks] on a float or double array is the bit
    pattern of the floating-point number stored. *)
Inductive Call : Set :=
  | SetFieldBoolean (is_volatile : bool) (obj field_offset value : Z)
  | SetFieldByte (is_volatile : bool) (obj field_offset value : Z)
  | SetFieldChar (is_volatile : bool) (obj field_offset value : Z)
  | SetFieldShort (is_volatile : bool) (obj field_offset value : Z)
  | SetField32 (is_volatile : bool) (obj field_offset value : Z)
  | SetField64 (is_volatile : bool) (obj field_offset value : Z)
  | SetFieldObject (is_volatile : bool) (obj field_offset value : Z)
  | SetWithoutChecks (type : PrimitiveType) (array index value : Z)
  | RemoveStrongFromTransaction (s : Z)
  | RemoveWeakFromTransaction (s : Z)
  | InsertStrongFromTransaction (s : Z)
  | InsertWeakFromTransaction (s : Z)
  | ClearString (dex_cache string_idx : Z).

(** What transaction.cc reads from the runtime, the heap, the object model
    and the class linker.  None of them is defined in transaction.cc, so they
    are parameters of the embedding. *)
Record Env : Type := {
  kIsDebugBuild : bool;
  IsAotCompiler : bool;
  IsActiveTransaction : bool;
  (** [Thread::Current()->IsExceptionPending()] *)
  IsExceptionPending : bool;
  (** [Runtime::Current()->GetInternTable()] *)
  GetInternTable : Z;
  (** [mirror::Class::ClassOffset().Uint32Value()] *)
  ClassOffset : Z;
  (** [mirror::Array::LengthOffset().Uint32Value()] *)
  LengthOffset : Z;
  ObjectIsInBootImageSpace : Z -> bool;
  (** [heap->GetBootImageSpaces().empty()] *)
  BootImageSpacesEmpty : bool;
  IsClass : Z -> bool;
  GetClass : Z -> Z;
  IsArrayInstance : Z -> bool;
  IsObjectArray : Z -> bool;
  (** [array->GetClass()->GetComponentType()->GetPrimitiveType()] *)
  ComponentPrimitiveType : Z -> PrimitiveType;
  CanReferenceInBootImageExtension : Z -> bool;
  (** [dex_cache->GetDexFile()->NumStringIds()] *)
  NumStringIds : Z -> Z
}.

(** ** Aborting checks *)

Definition CHECK (b : bool) : option unit := if b then Some tt else None.

Definition DCHECK (rt : Env) (b : bool) : option unit :=
  if kIsDebugBuild rt then CHECK b else Some tt.

(** ** Key-ordered traversal of a [std::map] *)

Definition key_le {A : Type} : relation (Z * A) := fun x y => x.1 <= y.1.

Global Instance key_le_dec {A : Type} (x y : Z * A) : Decision (key_le x y).
Proof. unfold key_le. apply _. Defined.

Definition entries {A : Type} (m : gmap Z A) : list (Z * A) :=
  merge_sort key_le (map_to_list m).

(** ** ObjectLog *)

Inductive FieldValueKind : Set :=
  | kBoolean | kByte | kChar | kShort | k32Bits | k64Bits | kReference.

Record FieldValue : Set := mkFieldValue {
  value : Z;              (* uint64_t *)
  kind : FieldValueKind;
  is_volatile : bool
}.

Module ObjectLog.

(** [field_values_], keyed by [MemberOffset::Uint32Value()].  A
    [MemberOffset] is used by transaction.cc only through that value, which
    stands for the offset here. *)
Abbreviation t := (gmap Z FieldValue).

Definition LogValue (k : FieldValueKind) (offset value : Z)
    (is_volatile : bool) (field_values_ : t) : t :=
  match field_values_ !! offset with
  | None => <[offset := mkFieldValue value k is_volatile]> field_values_
  | Some _ => field_values_
  end.

Definition LogBooleanValue (offset value : Z) (is_volatile : bool) : t -> t :=
  LogValue kBoolean offset (Int.to_uint64 value) is_volatile.

Definition LogByteValue (offset value : Z) (is_volatile : bool) : t -> t :=
  LogValue kByte offset (Int.to_uint64 value) is_volatile.

Definition LogCharValue (offset value : Z) (is_volatile : bool) : t -> t :=
  LogValue kChar offset (Int.to_uint64 value) is_volatile.

Definition LogShortValue (offset value : Z) (is_volatile : bool) : t -> t :=
  LogValue kShort offset (Int.to_uint64 value) is_volatile.

Definition Log32BitsValue (offset value : Z) (is_volatile : bool) : t -> t :=
  LogValue k32Bits offset (Int.to_uint64 value) is_volatile.

Definition Log64BitsValue (offset value : Z) (is_volatile : bool) : t -> t :=
  LogValue k64Bits offset value is_volatile.

Definition LogReferenceValue (offset obj : Z) (is_volatile : bool) : t -> t :=
  LogValue kReference offset obj is_volatile.

Definition UndoFieldWrite (obj field_offset : Z) (field_value : FieldValue)
    : Call :=
  let vol := is_volatile field_value in
  let v := value field_value in
  match kind field_value with
  | kBoolean => SetFieldBoolean vol obj field_offset (Int.to_uint8 v)
  | kByte => SetFieldByte vol obj field_offset (Int.to_int8 v)
  | kChar => SetFieldChar vol obj field_offset (Int.to_uint16 v)
  | kShort => SetFieldShort vol obj field_offset (Int.to_int16 v)
  | k32Bits => SetField32 vol obj field_offset (Int.to_uint32 v)
  | k64Bits => SetField64 vol obj field_offset v
  | kReference => SetFieldObject vol obj field_offset v
  end.

(** One iteration of the loop of [Undo]. *)
Definition UndoEntry (rt : Env) (obj : Z) (it : Z * FieldValue) : list Call :=
  let field_offset := it.1 in
  if field_offset =? ClassOffset rt then []
  else if IsArrayInstance rt obj && (field_offset =? LengthOffset rt) then []
  else [UndoFieldWrite obj field_offset it.2].

Definition Undo (rt : Env) (field_values_ : t) (obj : Z) : list Call :=
  flat_map (UndoEntry rt obj) (entries field_values_).

(** [VisitRootIfNonNull] on the value of a reference entry. *)
Definition VisitFieldValue (visitor : Z -> Z) (fv : FieldValue) : FieldValue :=
  match kind fv with
  | kReference =>
      if value fv =? 0 then fv
      else mkFieldValue (visitor (value fv)) (kind fv) (is_volatile fv)
  | _ => fv
  end.

Definition VisitRoots (visitor : Z -> Z) (field_values_ : t) : t :=
  VisitFieldValue visitor <$> field_values_.

End ObjectLog.

(** ** ArrayLog *)

Module ArrayLog.

(** [array_values_]: index to raw 64-bit value. *)
Abbreviation t := (gmap Z Z).

Definition LogValue (index value : Z) (array_values_ : t) : t :=
  match array_values_ !! index with
  | None => <[index := value]> array_values_
  | Some _ => array_values_
  end.

Definition UndoArrayWrite (array : Z) (array_type : PrimitiveType)
    (index value : Z) : option Call :=
  match array_type with
  | kPrimBoolean =>
      Some (SetWithoutChecks kPrimBoolean array index (Int.to_uint8 value))
  | kPrimByte =>
      Some (SetWithoutChecks kPrimByte array index (Int.to_int8 value))
  | kPrimChar =>
      Some (SetWithoutChecks kPrimChar array index (Int.to_uint16 value))
  | kPrimShort =>
      Some (SetWithoutChecks kPrimShort array index (Int.to_int16 value))
  | kPrimInt =>
      Some (SetWithoutChecks kPrimInt array index (Int.to_int32 value))
  | kPrimFloat =>
      Some (SetWithoutChecks kPrimFloat array index (Fp.float_of_uint64 value))
  | kPrimLong =>
      Some (SetWithoutChecks kPrimLong array index (Int.to_int64 value))
  | kPrimDouble =>
      Some (SetWithoutChecks kPrimDouble array index (Fp.double_of_uint64 value))
  | kPrimNot => None
  | kPrimVoid => None
  end.

Definition Undo (rt : Env) (array_values_ : t) (array : Z)
    : option (list Call) :=
  _ ← DCHECK rt (negb (array =? 0));
  _ ← DCHECK rt (IsArrayInstance rt array);
  let type := ComponentPrimitiveType rt array in
  mapM (fun it : Z * Z => UndoArrayWrite array type it.1 it.2)
       (entries array_values_).

End ArrayLog.

(** ** InternStringLog *)

Inductive StringKind : Set := kStrongString | kWeakString.
Inductive StringOp : Set := kInsert | kRemove.

Module InternStringLog.

Record t : Set := mk {
  str_ : Z;
  string_kind_ : StringKind;
  string_op_ : StringOp
}.

(** The constructor. *)
Definition new (rt : Env) (s : Z) (kind : StringKind) (op : StringOp)
    : option t :=
  _ ← DCHECK rt (negb (s =? 0));
  Some (mk s kind op).

Definition Undo (rt : Env) (log : t) : option Call :=
  _ ← DCHECK rt (negb (GetInternTable rt =? 0));
  match string_op_ log with
  | kInsert =>
      match string_kind_ log with
      | kStrongString => Some (RemoveStrongFromTransaction (str_ log))
      | kWeakString => Some (RemoveWeakFromTransaction (str_ log))
      end
  | kRemove =>
      match string_kind_ log with
      | kStrongString => Some (InsertStrongFromTransaction (str_ log))
      | kWeakString => Some (InsertWeakFromTransaction (str_ log))
      end
  end.

Definition VisitRoots (visitor : Z -> Z) (log : t) : t :=
  mk (visitor (str_ log)) (string_kind_ log) (string_op_ log).

End InternStringLog.

(** ** ResolveStringLog *)

Module ResolveStringLog.

Record t : Set := mk {
  dex_cache_ : Z;
  string_idx_ : Z
}.

(** The constructor. *)
Definition new (rt : Env) (dex_cache string_idx : Z) : option t :=
  _ ← DCHECK rt (negb (dex_cache =? 0));
  _ ← DCHECK rt (string_idx <? NumStringIds rt dex_cache);
  Some (mk dex_cache string_idx).

Definition Undo (log : t) : Call :=
  ClearString (dex_cache_ log) (string_idx_ log).

Definition VisitRoots (visitor : Z -> Z) (log : t) : t :=
  mk (visitor (dex_cache_ log)) (string_idx_ log).

End ResolveStringLog.

(** ** Transaction *)

Record Transaction : Type := mkTransaction {
  aborted_ : bool;
  rolling_back_ : bool;
  strict_ : bool;
  root_ : Z;
  abort_message_ : string;
  assert_no_new_records_reason_ : option string;
  object_logs_ : gmap Z ObjectLog.t;
  array_logs_ : gmap Z ArrayLog.t;
  intern_string_logs_ : list InternStringLog.t;
  resolve_string_logs_ : list ResolveStringLog.t
}.

Definition set_aborted (b : bool) (msg : string) (t : Transaction) :=
  mkTransaction b (rolling_back_ t) (strict_ t) (root_ t) msg
    (assert_no_new_records_reason_ t) (object_logs_ t) (array_logs_ t)
    (intern_string_logs_ t) (resolve_string_logs_ t).

Definition set_rolling_back (b : bool) (t : Transaction) :=
  mkTransaction (aborted_ t) b (strict_ t) (root_ t) (abort_message_ t)
    (assert_no_new_records_reason_ t) (object_logs_ t) (array_logs_ t)
    (intern_string_logs_ t) (resolve_string_logs_ t).

Definition set_root (r : Z) (t : Transaction) :=
  mkTransaction (aborted_ t) (rolling_back_ t) (strict_ t) r (abort_message_ t)
    (assert_no_new_records_reason_ t) (object_logs_ t) (array_logs_ t)
    (intern_string_logs_ t) (resolve_string_logs_ t).

Definition set_reason (r : option string) (t : Transaction) :=
  mkTransaction (aborted_ t) (rolling_back_ t) (strict_ t) (root_ t)
    (abort_message_ t) r (object_logs_ t) (array_logs_ t)
    (intern_string_logs_ t) (resolve_string_logs_ t).

Definition set_object_logs (m : gmap Z ObjectLog.t) (t : Transaction) :=
  mkTransaction (aborted_ t) (rolling_back_ t) (strict_ t) (root_ t)
    (abort_message_ t) (assert_no_new_records_reason_ t) m (array_logs_ t)
    (intern_string_logs_ t) (resolve_string_logs_ t).

Definition set_array_logs (m : gmap Z ArrayLog.t) (t : Transaction) :=
  mkTransaction (aborted_ t) (rolling_back_ t) (strict_ t) (root_ t)
    (abort_message_ t) (assert_no_new_records_reason_ t) (object_logs_ t) m
    (intern_string_logs_ t) (resolve_string_logs_ t).

Definition set_intern_string_logs (l : list InternStringLog.t)
    (t : Transaction) :=
  mkTransaction (aborted_ t) (rolling_back_ t) (strict_ t) (root_ t)
    (abort_message_ t) (assert_no_new_records_reason_ t) (object_logs_ t)
    (array_logs_ t) l (resolve_string_logs_ t).

Definition set_resolve_string_logs (l : list ResolveStringLog.t)
    (t : Transaction) :=
  mkTransaction (aborted_ t) (rolling_back_ t) (strict_ t) (root_ t)
    (abort_message_ t) (assert_no_new_records_reason_ t) (object_logs_ t)
    (array_logs_ t) (intern_string_logs_ t) l.

(** The member initialisers of the constructor; the members it does not
    name are default-constructed: an empty string and empty containers. *)
Definition initial (strict : bool) (root : Z) : Transaction :=
  mkTransaction false false strict root EmptyString None ∅ ∅ [] [].

(** [Transaction::Transaction(bool strict, mirror::Class* root)] *)
Definition Transaction_new (rt : Env) (strict : bool) (root : Z)
    : option Transaction :=
  _ ← DCHECK rt (IsAotCompiler rt);
  Some (initial strict root).

Definition Abort (abort_message : string) (t : Transaction) : Transaction :=
  if negb (aborted_ t) then set_aborted true abort_message t else t.

Definition IsAborted (t : Transaction) : bool := aborted_ t.
Definition IsRollingBack (t : Transaction) : bool := rolling_back_ t.
Definition GetAbortMessage (t : Transaction) : string := abort_message_ t.
Definition IsStrict (t : Transaction) : bool := strict_ t.

(** The exception [ThrowAbortError] raises: its message. *)
Definition ThrowAbortError (rt : Env) (abort_message : option string)
    (t : Transaction) : option string :=
  match abort_message with
  | None =>
      _ ← DCHECK rt (IsAborted t);
      Some (GetAbortMessage t)
  | Some m => Some m
  end.

Definition WriteConstraint (rt : Env) (t : Transaction) (obj : Z)
    : option bool :=
  _ ← DCHECK rt (negb (obj =? 0));
  if ObjectIsInBootImageSpace rt obj then Some true
  else Some (IsStrict t && IsClass rt obj && negb (obj =? root_ t)).

Definition WriteValueConstraint (rt : Env) (t : Transaction) (value : Z)
    : bool :=
  if value =? 0 then false
  else if IsStrict t then false
  else if BootImageSpacesEmpty rt then false
  else
    let klass := if IsClass rt value then value else GetClass rt value in
    negb (CanReferenceInBootImageExtension rt klass).

Definition ReadConstraint (rt : Env) (t : Transaction) (obj : Z)
    : option bool :=
  _ ← DCHECK rt (IsClass rt obj);
  if IsStrict t then Some (negb (obj =? root_ t)) else Some false.

(** *** Recording *)

(** The common prologue of the seven [RecordWriteField...] functions
    ([object_logs_[obj]] creates the log of [obj] when there is none),
    followed by the logging function [log] each of them calls. *)
Definition RecordWriteField (rt : Env) (obj : Z)
    (log : ObjectLog.t -> ObjectLog.t) (t : Transaction)
    : option Transaction :=
  _ ← DCHECK rt (negb (obj =? 0));
  _ ← DCHECK rt (bool_decide (assert_no_new_records_reason_ t = None));
  let object_log := default ∅ (object_logs_ t !! obj) in
  Some (set_object_logs (<[obj := log object_log]> (object_logs_ t)) t).

Definition RecordWriteFieldBoolean rt obj field_offset value is_volatile :=
  RecordWriteField rt obj
    (ObjectLog.LogBooleanValue field_offset value is_volatile).

Definition RecordWriteFieldByte rt obj field_offset value is_volatile :=
  RecordWriteField rt obj
    (ObjectLog.LogByteValue field_offset value is_volatile).

Definition RecordWriteFieldChar rt obj field_offset value is_volatile :=
  RecordWriteField rt obj
    (ObjectLog.LogCharValue field_offset value is_volatile).

Definition RecordWriteFieldShort rt obj field_offset value is_volatile :=
  RecordWriteField rt obj
    (ObjectLog.LogShortValue field_offset value is_volatile).

Definition RecordWriteField32 rt obj field_offset value is_volatile :=
  RecordWriteField rt obj
    (ObjectLog.Log32BitsValue field_offset value is_volatile).

Definition RecordWriteField64 rt obj field_offset value is_volatile :=
  RecordWriteField rt obj
    (ObjectLog.Log64BitsValue field_offset value is_volatile).

Definition RecordWriteFieldReference rt obj field_offset value is_volatile :=
  RecordWriteField rt obj
    (ObjectLog.LogReferenceValue field_offset value is_volatile).

Definition RecordWriteArray (rt : Env) (array index value : Z)
    (t : Transaction) : option Transaction :=
  _ ← DCHECK rt (negb (array =? 0));
  _ ← DCHECK rt (IsArrayInstance rt array);
  _ ← DCHECK rt (negb (IsObjectArray rt array));
  _ ← DCHECK rt (bool_decide (assert_no_new_records_reason_ t = None));
  let log := default ∅ (array_logs_ t !! array) in
  Some (set_array_logs
          (<[array := ArrayLog.LogValue index value log]> (array_logs_ t)) t).

Definition RecordResolveString (rt : Env) (dex_cache string_idx : Z)
    (t : Transaction) : option Transaction :=
  _ ← DCHECK rt (negb (dex_cache =? 0));
  _ ← DCHECK rt (string_idx <? NumStringIds rt dex_cache);
  _ ← DCHECK rt (bool_decide (assert_no_new_records_reason_ t = None));
  log ← ResolveStringLog.new rt dex_cache string_idx;
  Some (set_resolve_string_logs (resolve_string_logs_ t ++ [log]) t).

Definition LogInternedString (rt : Env) (log : InternStringLog.t)
    (t : Transaction) : option Transaction :=
  _ ← DCHECK rt (bool_decide (assert_no_new_records_reason_ t = None));
  Some (set_intern_string_logs (log :: intern_string_logs_ t) t).

Definition RecordStrongStringInsertion (rt : Env) (s : Z) (t : Transaction) :=
  log ← InternStringLog.new rt s kStrongString kInsert;
  LogInternedString rt log t.

Definition RecordWeakStringInsertion (rt : Env) (s : Z) (t : Transaction) :=
  log ← InternStringLog.new rt s kWeakString kInsert;
  LogInternedString rt log t.

Definition RecordStrongStringRemoval (rt : Env) (s : Z) (t : Transaction) :=
  log ← InternStringLog.new rt s kStrongString kRemove;
  LogInternedString rt log t.

Definition RecordWeakStringRemoval (rt : Env) (s : Z) (t : Transaction) :=
  log ← InternStringLog.new rt s kWeakString kRemove;
  LogInternedString rt log t.

(** *** Rollback *)

(** A call made into a collaborator, with what [IsRollingBack] answers
    while the call is made. *)
Definition Event : Set := bool * Call.

Definition emit (t : Transaction) (calls : list Call) : list Event :=
  map (pair (rolling_back_ t)) calls.

Definition object_undo_calls (rt : Env) (logs : gmap Z ObjectLog.t)
    : list Call :=
  flat_map (fun it : Z * ObjectLog.t => ObjectLog.Undo rt it.2 it.1)
           (entries logs).

Definition array_undo_calls (rt : Env) (logs : gmap Z ArrayLog.t)
    : option (list Call) :=
  calls ← mapM (fun it : Z * ArrayLog.t => ArrayLog.Undo rt it.2 it.1)
               (entries logs);
  Some (concat calls).

Definition intern_undo_calls (rt : Env) (logs : list InternStringLog.t)
    : option (list Call) :=
  mapM (InternStringLog.Undo rt) logs.

Definition resolve_undo_calls (logs : list ResolveStringLog.t) : list Call :=
  map ResolveStringLog.Undo logs.

Definition UndoObjectModifications (rt : Env) (t : Transaction)
    : Transaction * list Event :=
  (set_object_logs ∅ t, emit t (object_undo_calls rt (object_logs_ t))).

Definition UndoArrayModifications (rt : Env) (t : Transaction)
    : option (Transaction * list Event) :=
  calls ← array_undo_calls rt (array_logs_ t);
  Some (set_array_logs ∅ t, emit t calls).

Definition UndoInternStringTableModifications (rt : Env) (t : Transaction)
    : option (Transaction * list Event) :=
  calls ← intern_undo_calls rt (intern_string_logs_ t);
  Some (set_intern_string_logs [] t, emit t calls).

Definition UndoResolveStringModifications (t : Transaction)
    : Transaction * list Event :=
  (set_resolve_string_logs [] t,
   emit t (resolve_undo_calls (resolve_string_logs_ t))).

(** Modelled from the spec: [Thread::AssertNoPendingException], of thread.cc.
    No error may be pending on the calling thread; the call aborts when one
    is, in every build. *)
Definition AssertNoPendingException (rt : Env) : option unit :=
  CHECK (negb (IsExceptionPending rt)).

Definition Rollback (rt : Env) (t : Transaction)
    : option (Transaction * list Event) :=
  _ ← AssertNoPendingException rt;
  let t := set_rolling_back true t in
  _ ← CHECK (negb (IsActiveTransaction rt));
  let '(t, e1) := UndoObjectModifications rt t in
  '(t, e2) ← UndoArrayModifications rt t;
  '(t, e3) ← UndoInternStringTableModifications rt t;
  let '(t, e4) := UndoResolveStringModifications t in
  Some (set_rolling_back false t, e1 ++ e2 ++ e3 ++ e4).

(** *** Root visiting

    The visitor is the relocation it applies: it maps the address a root
    holds to the address the root holds afterwards. *)

(** One iteration of the loops that update a log collection with its moving
    roots. *)
Definition rekey {A : Type} (logs : gmap Z A) (moved : Z * Z)
    : option (gmap Z A) :=
  let old_root := moved.1 in
  let new_root := moved.2 in
  log ← logs !! old_root;
  _ ← CHECK (bool_decide (logs !! new_root = None));
  Some (delete old_root (<[new_root := log]> logs)).

Fixpoint update_moving_roots {A : Type} (moving_roots : list (Z * Z))
    (logs : gmap Z A) : option (gmap Z A) :=
  match moving_roots with
  | [] => Some logs
  | moved :: rest => logs' ← rekey logs moved; update_moving_roots rest logs'
  end.

(** The list of moving roots the first loop builds, in iteration order. *)
Definition moving_roots {A : Type} (visitor : Z -> Z) (logs : gmap Z A)
    : list (Z * Z) :=
  flat_map (fun it : Z * A =>
              let old_root := it.1 in
              let new_root := visitor old_root in
              if bool_decide (new_root = old_root) then []
              else [(old_root, new_root)])
           (entries logs).

Definition VisitObjectLogs (visitor : Z -> Z) (t : Transaction)
    : option Transaction :=
  let visited := ObjectLog.VisitRoots visitor <$> object_logs_ t in
  logs ← update_moving_roots (moving_roots visitor (object_logs_ t)) visited;
  Some (set_object_logs logs t).

Definition VisitArrayLogs (rt : Env) (visitor : Z -> Z) (t : Transaction)
    : option Transaction :=
  _ ← mapM (fun it : Z * ArrayLog.t => CHECK (negb (IsObjectArray rt it.1)))
           (entries (array_logs_ t));
  logs ← update_moving_roots (moving_roots visitor (array_logs_ t))
                             (array_logs_ t);
  Some (set_array_logs logs t).

Definition VisitInternStringLogs (visitor : Z -> Z) (t : Transaction)
    : Transaction :=
  set_intern_string_logs
    (map (InternStringLog.VisitRoots visitor) (intern_string_logs_ t)) t.

Definition VisitResolveStringLogs (visitor : Z -> Z) (t : Transaction)
    : Transaction :=
  set_resolve_string_logs
    (map (ResolveStringLog.VisitRoots visitor) (resolve_string_logs_ t)) t.

Definition VisitRoots (rt : Env) (visitor : Z -> Z) (t : Transaction)
    : option Transaction :=
  let t := set_root (visitor (root_ t)) t in
  t ← VisitObjectLogs visitor t;
  t ← VisitArrayLogs rt visitor t;
  Some (VisitResolveStringLogs visitor (VisitInternStringLogs visitor t)).

(** *** ScopedAssertNoNewTransactionRecords

    [t] is the transaction of the runtime.  [InstallAssertion] answers
    whether it returns that transaction rather than [nullptr].  The argument
    [is_current] of [RemoveAssertion] tells whether the transaction it is
    given is the one [Runtime::Current()->GetTransaction()] returns. *)

Module ScopedAssertNoNewTransactionRecords.

Definition InstallAssertion (rt : Env) (reason : string) (t : Transaction)
    : option (bool * Transaction) :=
  if kIsDebugBuild rt && IsActiveTransaction rt then
    _ ← CHECK (bool_decide (assert_no_new_records_reason_ t = None));
    Some (true, set_reason (Some reason) t)
  else Some (false, t).

Definition RemoveAssertion (rt : Env) (is_current : bool) (t : Transaction)
    : option Transaction :=
  if kIsDebugBuild rt then
    _ ← CHECK is_current;
    _ ← CHECK (bool_decide (assert_no_new_records_reason_ t <> None));
    Some (set_reason None t)
  else Some t.

End ScopedAssertNoNewTransactionRecords.

(** ** The intern table

    Modelled from the spec: the string-interning table (intern_table.cc is
    not part of transaction.cc).  The spec describes it as a table of
    canonical strings split into a strong and a weak tier, into which the
    undo of a log entry inserts a string or from which it removes one. *)

Record InternTable : Type := mkInternTable {
  strong_interns_ : gset Z;
  weak_interns_ : gset Z
}.

Definition intern_table_call (tbl : InternTable) (c : Call) : InternTable :=
  match c with
  | RemoveStrongFromTransaction s =>
      mkInternTable (strong_interns_ tbl ∖ {[s]}) (weak_interns_ tbl)
  | RemoveWeakFromTransaction s =>
      mkInternTable (strong_interns_ tbl) (weak_interns_ tbl ∖ {[s]})
  | InsertStrongFromTransaction s =>
      mkInternTable ({[s]} ∪ strong_interns_ tbl) (weak_interns_ tbl)
  | InsertWeakFromTransaction s =>
      mkInternTable (strong_interns_ tbl) ({[s]} ∪ weak_interns_ tbl)
  | _ => tbl
  end.

Definition intern_table_calls (tbl : InternTable) (calls : list Call)
    : InternTable :=
  foldl intern_table_call tbl calls.

(** ** A runtime for the examples

    A debug build of the AOT compiler, outside of any active transaction,
    compiling a boot image extension.  Addresses below 1000 lie in the boot
    image; 100 and 1100 are classes, 2000 is an int array, 2100 a float
    array; every object's class is 100; only the classes of the boot image
    can be referenced from the extension. *)
Definition example_env : Env := {|
  kIsDebugBuild := true;
  IsAotCompiler := true;
  IsActiveTransaction := false;
  IsExceptionPending := false;
  GetInternTable := 1;
  ClassOffset := 0;
  LengthOffset := 8;
  ObjectIsInBootImageSpace := fun obj => obj <? 1000;
  BootImageSpacesEmpty := false;
  IsClass := fun obj => (obj =? 100) || (obj =? 1100);
  GetClass := fun _ => 100;
  IsArrayInstance := fun obj => (obj =? 2000) || (obj =? 2100);
  IsObjectArray := fun _ => false;
  ComponentPrimitiveType :=
    fun array => if array =? 2100 then kPrimFloat else kPrimInt;
  CanReferenceInBootImageExtension := fun klass => klass <? 1000;
  NumStringIds := fun _ => 16
|}.

(** ** Vocabulary of the statements *)

(** [WriteValueConstraint] as the specification words it: the class tested
    in a boot image extension build is the class of the value. *)
Definition WriteValueConstraint_as_specified (rt : Env) (t : Transaction)
    (value : Z) : bool :=
  if value =? 0 then false
  else if IsStrict t then false
  else if BootImageSpacesEmpty rt then false
  else negb (CanReferenceInBootImageExtension rt (GetClass rt value)).

(** The object and the offset a field setter writes. *)
Definition call_field (c : Call) : option (Z * Z) :=
  match c with
  | SetFieldBoolean _ obj off _ | SetFieldByte _ obj off _
  | SetFieldChar _ obj off _ | SetFieldShort _ obj off _
  | SetField32 _ obj off _ | SetField64 _ obj off _
  | SetFieldObject _ obj off _ => Some (obj, off)
  | _ => None
  end.

(** The array and the index an array setter writes. *)
Definition call_element (c : Call) : option (Z * Z) :=
  match c with
  | SetWithoutChecks _ array index _ => Some (array, index)
  | _ => None
  end.

(** An offset [ObjectLog::Undo] skips on [obj]. *)
Definition protected_slot (rt : Env) (obj offset : Z) : Prop :=
  offset = ClassOffset rt \/
  (IsArrayInstance rt obj = true /\ offset = LengthOffset rt).

(** The values a field of each kind holds. *)
Definition field_value_in_range (k : FieldValueKind) (v : Z) : Prop :=
  match k with
  | kBoolean => Int.is_unsigned 8 v
  | kByte => Int.is_signed 8 v
  | kChar => Int.is_unsigned 16 v
  | kShort => Int.is_signed 16 v
  | k32Bits => Int.is_unsigned 32 v
  | k64Bits => Int.is_unsigned 64 v
  | kReference => Int.is_unsigned 64 v
  end.

(** The logging function [RecordWriteField...] calls for each kind. *)
Definition LogValueOfKind (k : FieldValueKind)
    : Z -> Z -> bool -> ObjectLog.t -> ObjectLog.t :=
  match k with
  | kBoolean => ObjectLog.LogBooleanValue
  | kByte => ObjectLog.LogByteValue
  | kChar => ObjectLog.LogCharValue
  | kShort => ObjectLog.LogShortValue
  | k32Bits => ObjectLog.Log32BitsValue
  | k64Bits => ObjectLog.Log64BitsValue
  | kReference => ObjectLog.LogReferenceValue
  end.

(** The raw value kept in the log for a value of kind [k]. *)
Definition raw_value (k : FieldValueKind) (v : Z) : Z :=
  match k with
  | k64Bits | kReference => v
  | _ => Int.to_uint64 v
  end.

(** The setter of the object model for each kind. *)
Definition SetFieldOfKind (k : FieldValueKind) : bool -> Z -> Z -> Z -> Call :=
  match k with
  | kBoolean => SetFieldBoolean
  | kByte => SetFieldByte
  | kChar => SetFieldChar
  | kShort => SetFieldShort
  | k32Bits => SetField32
  | k64Bits => SetField64
  | kReference => SetFieldObject
  end.

(** The values an element of an array of each integer type holds. *)
Definition element_in_range (type : PrimitiveType) (v : Z) : Prop :=
  match type with
  | kPrimBoolean => Int.is_unsigned 8 v
  | kPrimByte => Int.is_signed 8 v
  | kPrimChar => Int.is_unsigned 16 v
  | kPrimShort => Int.is_signed 16 v
  | kPrimInt => Int.is_signed 32 v
  | kPrimLong => Int.is_signed 64 v
  | _ => False
  end.

(** The transaction a rollback leaves: the flags and the root as they were,
    not rolling back, the four logs empty. *)
Definition rolled_back (t : Transaction) : Transaction :=
  mkTransaction (aborted_ t) false (strict_ t) (root_ t) (abort_message_ t)
    (assert_no_new_records_reason_ t) ∅ ∅ [] [].

(** The object model calls, the array calls, the intern table calls and the
    dex cache calls. *)
Definition is_field_call (c : Call) : bool := bool_decide (is_Some (call_field c)).

Definition is_element_call (c : Call) : bool :=
  bool_decide (is_Some (call_element c)).

Definition is_intern_call (c : Call) : bool :=
  match c with
  | RemoveStrongFromTransaction _ | RemoveWeakFromTransaction _
  | InsertStrongFromTransaction _ | InsertWeakFromTransaction _ => true
  | _ => false
  end.

Definition is_dex_cache_call (c : Call) : bool :=
  match c with ClearString _ _ => true | _ => false end.

(** A transaction with an entry in each of its four logs. *)
Definition example_transaction : Transaction :=
  mkTransaction false false true 1100 EmptyString None
    {[ 1200 := {[ 8 := mkFieldValue 0 k32Bits false ]} ]}
    {[ 2000 := {[ 3 := 7 ]} ]}
    [InternStringLog.mk 3000 kStrongString kRemove;
     InternStringLog.mk 3000 kStrongString kInsert]
    [ResolveStringLog.mk 4000 5].

(** The four recording functions, by table and operation. *)
Definition RecordString (rt : Env) (kind : StringKind) (op : StringOp)
    : Z -> Transaction -> option Transaction :=
  match kind, op with
  | kStrongString, kInsert => RecordStrongStringInsertion rt
  | kWeakString, kInsert => RecordWeakStringInsertion rt
  | kStrongString, kRemove => RecordStrongStringRemoval rt
  | kWeakString, kRemove => RecordWeakStringRemoval rt
  end.



(** The recording operations of a transaction. *)
Inductive RecordOp : Type :=
  | OpWriteField (k : FieldValueKind) (obj field_offset value : Z)
      (is_volatile : bool)
  | OpWriteArray (array index value : Z)
  | OpResolveString (dex_cache string_idx : Z)
  | OpString (kind : StringKind) (op : StringOp) (s : Z).

(** The seven [RecordWriteField...] functions, by kind. *)
Definition RecordWriteFieldOfKind (rt : Env) (k : FieldValueKind)
    : Z -> Z -> Z -> bool -> Transaction -> option Transaction :=
  match k with
  | kBoolean => RecordWriteFieldBoolean rt
  | kByte => RecordWriteFieldByte rt
  | kChar => RecordWriteFieldChar rt
  | kShort => RecordWriteFieldShort rt
  | k32Bits => RecordWriteField32 rt
  | k64Bits => RecordWriteField64 rt
  | kReference => RecordWriteFieldReference rt
  end.

Definition record (rt : Env) (op : RecordOp) (t : Transaction)
    : option Transaction :=
  match op with
  | OpWriteField k obj field_offset value is_volatile =>
      RecordWriteFieldOfKind rt k obj field_offset value is_volatile t
  | OpWriteArray array index value => RecordWriteArray rt array index value t
  | OpResolveString dex_cache string_idx =>
      RecordResolveString rt dex_cache string_idx t
  | OpString kind op s => RecordString rt kind op s t
  end.

(** A sequence of recording operations, the first of the list first. *)
Fixpoint records (rt : Env) (ops : list RecordOp) (t : Transaction)
    : option Transaction :=
  match ops with
  | [] => Some t
  | op :: ops => t' ← record rt op t; records rt ops t'
  end.

(** A location of the heap a log has entries for, and the entry. *)
Inductive Location : Set :=
  | FieldLocation (obj field_offset : Z)
  | ElementLocation (array index : Z).

Inductive LogEntry : Set :=
  | FieldEntry (field_value : FieldValue)
  | ElementEntry (raw : Z).

Definition entry_at (t : Transaction) (loc : Location) : option LogEntry :=
  match loc with
  | FieldLocation obj field_offset =>
      FieldEntry <$> (object_logs_ t !! obj ≫= fun log => log !! field_offset)
  | ElementLocation array index =>
      ElementEntry <$> (array_logs_ t !! array ≫= fun log => log !! index)
  end.

(** The location a recording operation is about, with the entry made of
    the arguments of the call. *)
Definition written (op : RecordOp) : option (Location * LogEntry) :=
  match op with
  | OpWriteField k obj field_offset value is_volatile =>
      Some (FieldLocation obj field_offset,
            FieldEntry (mkFieldValue (raw_value k value) k is_volatile))
  | OpWriteArray array index value =>
      Some (ElementLocation array index, ElementEntry value)
  | _ => None
  end.

(** The location a call writes. *)
Definition call_location (c : Call) : option Location :=
  match call_field c, call_element c with
  | Some (obj, field_offset), _ => Some (FieldLocation obj field_offset)
  | None, Some (array, index) => Some (ElementLocation array index)
  | None, None => None
  end.

(** The call that undoes an entry at a location: none for a protected slot,
    none for an array that must not have been logged. *)
Definition undo_call (rt : Env) (loc : Location) (e : LogEntry) : option Call :=
  match loc, e with
  | FieldLocation obj field_offset, FieldEntry fv =>
      match ObjectLog.UndoEntry rt obj (field_offset, fv) with
      | [c] => Some c
      | _ => None
      end
  | ElementLocation array index, ElementEntry raw =>
      ArrayLog.UndoArrayWrite array (ComponentPrimitiveType rt array) index raw
  | _, _ => None
  end.

(** A transaction with two object logs and one array log, and a visitor that
    moves the object at 1200 to 1150, the object at 1300 to 1200 and the
    array at 2000 to 2500. *)
Definition moving_transaction : Transaction :=
  mkTransaction false false true 100 EmptyString None
    {[ 1200 := {[ 8 := mkFieldValue 1300 kReference false ]};
       1300 := {[ 12 := mkFieldValue 7 k32Bits false ]} ]}
    {[ 2000 := {[ 3 := 7 ]} ]} [] [].

Definition moving_visitor (root : Z) : Z :=
  if root =? 1200 then 1150
  else if root =? 1300 then 1200
  else if root =? 2000 then 2500
  else root.

Definition moved_transaction : Transaction :=
  mkTransaction false false true 100 EmptyString None
    {[ 1150 := {[ 8 := mkFieldValue 1200 kReference false ]};
       1200 := {[ 12 := mkFieldValue 7 k32Bits false ]} ]}
    {[ 2500 := {[ 3 := 7 ]} ]} [] [].

(** What a collector ensures of the keys of a log collection: it moves no
    two of them to one address, and none to an address that is a key. *)
Definition relocation {A : Type} (visitor : Z -> Z) (logs : gmap Z A) : Prop :=
  (forall k, is_Some (logs !! k) -> visitor k <> k ->
             logs !! visitor k = None) /\
  (forall k1 k2, is_Some (logs !! k1) -> is_Some (logs !! k2) ->
                 visitor k1 = visitor k2 -> k1 = k2).

(** The runtime of the examples while a transaction is active. *)
Definition example_env_active : Env := {|
  kIsDebugBuild := true;
  IsAotCompiler := true;
  IsActiveTransaction := true;
  IsExceptionPending := false;
  GetInternTable := 1;
  ClassOffset := 0;
  LengthOffset := 8;
  ObjectIsInBootImageSpace := fun obj => obj <? 1000;
  BootImageSpacesEmpty := false;
  IsClass := fun obj => (obj =? 100) || (obj =? 1100);
  GetClass := fun _ => 100;
  IsArrayInstance := fun obj => (obj =? 2000) || (obj =? 2100);
  IsObjectArray := fun _ => false;
  ComponentPrimitiveType :=
    fun array => if array =? 2100 then kPrimFloat else kPrimInt;
  CanReferenceInBootImageExtension := fun klass => klass <? 1000;
  NumStringIds := fun _ => 16
|}.

(** The component types [ArrayLog::UndoArrayWrite] has a case for. *)
Definition is_primitive (type : PrimitiveType) : bool :=
  match type with
  | kPrimNot | kPrimVoid => false
  | _ => true
  end.

(** The resolve string entries and the intern string entries a sequence of
    recording operations makes, in the order of the operations. *)
Definition resolve_slots (ops : list RecordOp) : list ResolveStringLog.t :=
  omap (fun op => match op with
                  | OpResolveString dex_cache string_idx =>
                      Some (ResolveStringLog.mk dex_cache string_idx)
                  | _ => None
                  end) ops.

Definition string_entries (ops : list RecordOp) : list InternStringLog.t :=
  omap (fun op => match op with
                  | OpString kind op s => Some (InternStringLog.mk s kind op)
                  | _ => None
                  end) ops.

(** Modelled from the spec: the operation of the intern table an intern
    string entry is the record of (intern_table.cc is not part of
    transaction.cc).  An insertion is of a string the table does not hold, a
    removal of a string it holds; [None] when the entry does not apply. *)
Definition string_op_forward (tbl : InternTable) (log : InternStringLog.t)
    : option InternTable :=
  let s := InternStringLog.str_ log in
  match InternStringLog.string_op_ log, InternStringLog.string_kind_ log with
  | kInsert, kStrongString =>
      if decide (s ∈ strong_interns_ tbl) then None
      else Some (mkInternTable ({[s]} ∪ strong_interns_ tbl) (weak_interns_ tbl))
  | kInsert, kWeakString =>
      if decide (s ∈ weak_interns_ tbl) then None
      else Some (mkInternTable (strong_interns_ tbl) ({[s]} ∪ weak_interns_ tbl))
  | kRemove, kStrongString =>
      if decide (s ∈ strong_interns_ tbl)
      then Some (mkInternTable (strong_interns_ tbl ∖ {[s]}) (weak_interns_ tbl))
      else None
  | kRemove, kWeakString =>
      if decide (s ∈ weak_interns_ tbl)
      then Some (mkInternTable (strong_interns_ tbl) (weak_interns_ tbl ∖ {[s]}))
      else None
  end.

Fixpoint string_ops_forward (tbl : InternTable)
    (logs : list InternStringLog.t) : option InternTable :=
  match logs with
  | [] => Some tbl
  | log :: logs => tbl' ← string_op_forward tbl log; string_ops_forward tbl' logs
  end.

(** What the recording functions keep true of the logs: no log is empty and,
    in a debug build, every key and every reference of an entry passed the
    checks of the function that recorded it. *)
Definition well_recorded (rt : Env) (t : Transaction) : Prop :=
  (forall obj log, object_logs_ t !! obj = Some log -> log <> ∅) /\
  (forall array log, array_logs_ t !! array = Some log -> log <> ∅) /\
  (kIsDebugBuild rt = true ->
   (forall obj, is_Some (object_logs_ t !! obj) -> obj <> 0) /\
   (forall array, is_Some (array_logs_ t !! array) ->
      array <> 0 /\ IsArrayInstance rt array = true /\
      IsObjectArray rt array = false) /\
   Forall (fun log => InternStringLog.str_ log <> 0)
          (intern_string_logs_ t) /\
   Forall (fun log =>
             ResolveStringLog.dex_cache_ log <> 0 /\
             ResolveStringLog.string_idx_ log
             < NumStringIds rt (ResolveStringLog.dex_cache_ log))
          (resolve_string_logs_ t)).

(** The value of a logged field value after the visit of the roots: only a
    non-null reference is shown to the visitor. *)
Definition visited_value (visitor : Z -> Z) (fv : FieldValue) : Z :=
  match kind fv with
  | kReference => if value fv =? 0 then 0 else visitor (value fv)
  | _ => value fv
  end.

(** ** The heap

    Modelled from the spec: the accessors of the object model
    (mirror/object-inl.h and mirror/array-inl.h are not part of
    transaction.cc).  The heap is a memory of cells, and [cell] gives the
    cell in which a field (an object and an offset) or an array element (an
    array and an index) is stored.  An element of an array is also reached
    as a field of the array, at the offset of the element: the two
    locations then have one cell.  A setter stores its value in the cell of
    the location it names.  A write under a transaction records the value
    the cell of its location holds, through the recording function of the
    kind of the field or through [RecordWriteArray], and stores the new
    value. *)

Global Instance Location_eq_dec : EqDecision Location.
Proof. solve_decision. Defined.

(** The value a setter stores. *)
Definition call_value (c : Call) : Z :=
  match c with
  | SetFieldBoolean _ _ _ v | SetFieldByte _ _ _ v | SetFieldChar _ _ _ v
  | SetFieldShort _ _ _ v | SetField32 _ _ _ v | SetField64 _ _ _ v
  | SetFieldObject _ _ _ v | SetWithoutChecks _ _ _ v => v
  | _ => 0
  end.

Definition heap_call (cell : Location -> Z) (h : Z -> Z) (c : Call)
    : Z -> Z :=
  match call_location c with
  | Some loc => fun a => if decide (a = cell loc) then call_value c else h a
  | None => h
  end.

Definition heap_calls (cell : Location -> Z) (h : Z -> Z)
    (calls : list Call) : Z -> Z :=
  foldl (heap_call cell) h calls.

Inductive Write : Set :=
  | WriteField (k : FieldValueKind) (obj field_offset new_value : Z)
      (is_volatile : bool)
  | WriteElement (array index new_value : Z).

Definition write_location (w : Write) : Location :=
  match w with
  | WriteField _ obj field_offset _ _ => FieldLocation obj field_offset
  | WriteElement array index _ => ElementLocation array index
  end.

Definition write_value (w : Write) : Z :=
  match w with
  | WriteField _ _ _ new_value _ => new_value
  | WriteElement _ _ new_value => new_value
  end.

(** The recording a write makes, of the value [old] the location holds. *)
Definition write_record (old : Z) (w : Write) : RecordOp :=
  match w with
  | WriteField k obj field_offset _ is_volatile =>
      OpWriteField k obj field_offset old is_volatile
  | WriteElement array index _ =>
      OpWriteArray array index (Int.to_uint64 old)
  end.

Definition transactional_write (rt : Env) (cell : Location -> Z)
    (s : Transaction * (Z -> Z)) (w : Write)
    : option (Transaction * (Z -> Z)) :=
  t' ← record rt (write_record (s.2 (cell (write_location w))) w) s.1;
  Some (t', fun a => if decide (a = cell (write_location w))
                     then write_value w else s.2 a).

Fixpoint transactional_writes (rt : Env) (cell : Location -> Z)
    (ws : list Write) (s : Transaction * (Z -> Z))
    : option (Transaction * (Z -> Z)) :=
  match ws with
  | [] => Some s
  | w :: ws =>
      s' ← transactional_write rt cell s w; transactional_writes rt cell ws s'
  end.



(** The cells of the examples: a field is at its offset from the address of
    the object, the elements of an int array from offset 12 of the array,
    four bytes each. *)
Definition example_cell (loc : Location) : Z :=
  match loc with
  | FieldLocation obj field_offset => obj + field_offset
  | ElementLocation array index => array + 12 + 4 * index
  end.

(** The object or array of a location, and its offset or index. *)
Definition location_base (loc : Location) : Z :=
  match loc with
  | FieldLocation obj _ => obj
  | ElementLocation array _ => array
  end.

Definition location_index (loc : Location) : Z :=
  match loc with
  | FieldLocation _ field_offset => field_offset
  | ElementLocation _ index => index
  end.

(** The runtime of the examples after the collection of [moving_visitor]:
    the int array is at 2500. *)
Definition example_env_moved : Env := {|
  kIsDebugBuild := true;
  IsAotCompiler := true;
  IsActiveTransaction := false;
  IsExceptionPending := false;
  GetInternTable := 1;
  ClassOffset := 0;
  LengthOffset := 8;
  ObjectIsInBootImageSpace := fun obj => obj <? 1000;
  BootImageSpacesEmpty := false;
  IsClass := fun obj => obj =? 100;
  GetClass := fun _ => 100;
  IsArrayInstance := fun obj => obj =? 2500;
  IsObjectArray := fun _ => false;
  ComponentPrimitiveType := fun _ => kPrimInt;
  CanReferenceInBootImageExtension := fun klass => klass <? 1000;
  NumStringIds := fun _ => 16
|}.

(** The pointers a rollback dereferences are valid: the logged objects, the
    logged arrays, which are array instances, and the logged dex caches are
    not null, and the runtime has an intern table when there is an intern
    string entry to undo. *)
Definition rollback_receivers (rt : Env) (t : Transaction) : Prop :=
  (forall obj, is_Some (object_logs_ t !! obj) -> obj <> 0) /\
  (forall array, is_Some (array_logs_ t !! array) ->
     array <> 0 /\ IsArrayInstance rt array = true) /\
  Forall (fun log => ResolveStringLog.dex_cache_ log <> 0)
         (resolve_string_logs_ t) /\
  (intern_string_logs_ t <> [] -> GetInternTable rt <> 0).

(** The object log of an array with entries at its class slot (0), its
    length slot (8) and its first element (12). *)
Definition example_array_object_log : ObjectLog.t :=
  ObjectLog.Log32BitsValue 12 7 false
    (ObjectLog.Log32BitsValue 8 5 false
       (ObjectLog.LogReferenceValue 0 100 false ∅)).

(** * Properties *)

(** ** Checks *)

Lemma CHECK_Some (b : bool) (u : unit) : CHECK b = Some u <-> b = true.
Proof. destruct b, u; simpl; split; congruence. Qed.

Lemma DCHECK_Some (rt : Env) (b : bool) (u : unit) :
  DCHECK rt b = Some u <-> (kIsDebugBuild rt = true -> b = true).
Proof.
  unfold DCHECK. destruct (kIsDebugBuild rt), u.
  - rewrite CHECK_Some. intuition.
  - intuition congruence.
Qed.

Lemma DCHECK_true (rt : Env) : DCHECK rt true = Some tt.
Proof. unfold DCHECK. by destruct (kIsDebugBuild rt). Qed.

(** ** Traversal of a map *)

Lemma elem_of_entries {A : Type} (m : gmap Z A) (k : Z) (v : A) :
  (k, v) ∈ entries m <-> m !! k = Some v.
Proof.
  unfold entries. rewrite merge_sort_Permutation.
  apply elem_of_map_to_list.
Qed.

Lemma NoDup_fst_entries {A : Type} (m : gmap Z A) : NoDup (entries m).*1.
Proof.
  unfold entries. rewrite merge_sort_Permutation.
  apply NoDup_fst_map_to_list.
Qed.

Lemma entries_empty {A : Type} : entries (∅ : gmap Z A) = [].
Proof. unfold entries. by rewrite map_to_list_empty. Qed.

Lemma key_le_total {A : Type} : Total (@key_le A).
Proof. intros x y. unfold key_le. lia. Qed.

(** The traversal is in increasing key order, as the iteration of a
    [std::map]. *)
Lemma entries_sorted {A : Type} (m : gmap Z A) : Sorted key_le (entries m).
Proof. apply (@Sorted_merge_sort _ key_le _ key_le_total). Qed.

(** ** Abort *)

(** C8.  The first [Abort] of a transaction that is not aborted sets the
    flag and stores its message; whatever [Abort] calls follow leave the
    transaction as the first one left it, so [GetAbortMessage] keeps
    answering the first message. *)
Theorem Abort_first_message_wins
    (t : Transaction) (first : string) (later : list string) :
  IsAborted t = false ->
  let t1 := Abort first t in
  let t2 := foldl (fun t m => Abort m t) t1 later in
  IsAborted t1 = true /\ GetAbortMessage t1 = first /\
  t2 = t1 /\ IsAborted t2 = true /\ GetAbortMessage t2 = first.
Proof.
  intros Hna t1 t2.
  assert (H1 : IsAborted t1 = true /\ GetAbortMessage t1 = first).
  { subst t1. unfold Abort, IsAborted in *. rewrite Hna. simpl. auto. }
  assert (H2 : t2 = t1).
  { subst t2. destruct H1 as [Ha _]. revert Ha. generalize t1. clear.
    induction later as [|m later IH]; intros t Ha; simpl; [done|].
    assert (Abort m t = t) as ->; [|by apply IH].
    unfold Abort. unfold IsAborted in Ha. by rewrite Ha. }
  rewrite H2. tauto.
Qed.

Lemma Abort_first_message_wins_witness :
  GetAbortMessage
    (foldl (fun t m => Abort m t) (Abort "first" (initial true 100))
           ["second"])
  = "first"%string.
Proof.
  apply (Abort_first_message_wins (initial true 100) "first" ["second"]).
  reflexivity.
Defined.

(** ** Constraints *)

(** C6.  [WriteConstraint] blocks every object of the boot image, in both
    modes; outside of the boot image it blocks exactly the classes other
    than the root class, and only in strict mode. *)
Theorem WriteConstraint_rule (rt : Env) (t : Transaction) (obj : Z) :
  obj <> 0 ->
  exists blocked : bool,
    WriteConstraint rt t obj = Some blocked /\
    (ObjectIsInBootImageSpace rt obj = true -> blocked = true) /\
    (ObjectIsInBootImageSpace rt obj = false ->
       (blocked = true <->
        IsStrict t = true /\ IsClass rt obj = true /\ obj <> root_ t)) /\
    (ObjectIsInBootImageSpace rt obj = false -> IsClass rt obj = false ->
       blocked = false) /\
    (ObjectIsInBootImageSpace rt obj = false -> IsStrict t = false ->
       blocked = false).
Proof.
  intros Hobj. unfold WriteConstraint.
  assert (DCHECK rt (negb (obj =? 0)) = Some tt) as ->.
  { apply DCHECK_Some. intros _. apply negb_true_iff. lia. }
  simpl.
  destruct (ObjectIsInBootImageSpace rt obj) eqn:Himg.
  - exists true. repeat split; congruence.
  - eexists. split; [reflexivity|].
    unfold IsStrict.
    destruct (strict_ t), (IsClass rt obj), (Z.eqb_spec obj (root_ t));
      simpl; intuition congruence.
Qed.

Lemma WriteConstraint_rule_witness :
  exists blocked : bool,
    WriteConstraint example_env (initial true 1100) 1200 = Some blocked /\
    blocked = false.
Proof.
  destruct (WriteConstraint_rule example_env (initial true 1100) 1200)
    as (blocked & Hw & _ & _ & Hinst & _); [lia|].
  exists blocked. split; [exact Hw|].
  apply Hinst; reflexivity.
Defined.

(** C7, as stated, fails when the value stored is itself a class: class 1100
    of the extension cannot be referenced, while its own class (100, in the
    boot image) can.  The code tests the class 1100 and blocks the write;
    the wording of the specification tests the class of 1100 and does not. *)
Lemma WriteValueConstraint_class_value_counterexample :
  ~ (forall rt t value,
       WriteValueConstraint rt t value
       = WriteValueConstraint_as_specified rt t value).
Proof.
  intros H.
  specialize (H example_env (initial false 100) 1100).
  vm_compute in H. discriminate H.
Qed.

(** The decision of [WriteValueConstraint], with the class it tests. *)
Lemma WriteValueConstraint_rule (rt : Env) (t : Transaction) (value : Z) :
  let klass := if IsClass rt value then value else GetClass rt value in
  WriteValueConstraint rt t value =
    if bool_decide (value = 0) then false
    else if IsStrict t then false
    else if BootImageSpacesEmpty rt then false
    else negb (CanReferenceInBootImageExtension rt klass).
Proof.
  intros klass. unfold WriteValueConstraint.
  case_bool_decide as Hv.
  - by rewrite Hv.
  - by apply Z.eqb_neq in Hv as ->.
Qed.

(** C7, amended.  [WriteValueConstraint] never blocks [null], never blocks
    in strict mode, never blocks when the heap has no boot image space;
    otherwise it blocks exactly when the class the value denotes, which is
    the value itself when the value is a class and the class of the value
    when it is not, cannot be referenced from the boot image extension. *)
Theorem WriteValueConstraint_cases (rt : Env) (t : Transaction) (value : Z) :
  WriteValueConstraint rt t 0 = false /\
  (IsStrict t = true -> WriteValueConstraint rt t value = false) /\
  (BootImageSpacesEmpty rt = true -> WriteValueConstraint rt t value = false) /\
  (value <> 0 -> IsStrict t = false -> BootImageSpacesEmpty rt = false ->
   (WriteValueConstraint rt t value = true <->
    CanReferenceInBootImageExtension rt
      (if IsClass rt value then value else GetClass rt value) = false)).
Proof.
  rewrite !WriteValueConstraint_rule.
  split; [by case_bool_decide|].
  split; [intros ->; by case_bool_decide|].
  split; [intros ->; case_bool_decide; [done|]; by destruct (IsStrict t)|].
  intros Hv Hs Hb. rewrite bool_decide_eq_false_2, Hs, Hb by done.
  apply negb_true_iff.
Qed.

Lemma WriteValueConstraint_cases_witness :
  WriteValueConstraint example_env (initial false 100) 1100 = true.
Proof.
  apply (WriteValueConstraint_cases example_env (initial false 100) 1100);
    [lia | reflexivity | reflexivity | reflexivity].
Defined.

(** ** Construction *)

(** C10.  A transaction that has just been constructed is neither aborted
    nor rolling back, has an empty abort message, no reason installed by a
    reentrancy guard and four empty logs; rolling it back makes no call into
    the object model, the intern table or the dex cache. *)
Theorem Transaction_new_fresh (rt : Env) (strict : bool) (root : Z) :
  (kIsDebugBuild rt = true -> IsAotCompiler rt = true) ->
  exists t : Transaction,
    Transaction_new rt strict root = Some t /\
    IsAborted t = false /\
    IsRollingBack t = false /\
    GetAbortMessage t = EmptyString /\
    assert_no_new_records_reason_ t = None /\
    object_logs_ t = ∅ /\
    array_logs_ t = ∅ /\
    intern_string_logs_ t = [] /\
    resolve_string_logs_ t = [] /\
    IsStrict t = strict /\
    root_ t = root /\
    Rollback rt t =
      if IsExceptionPending rt || IsActiveTransaction rt
      then None else Some (t, []).
Proof.
  intros Haot. exists (initial strict root).
  split.
  { unfold Transaction_new.
    by apply (DCHECK_Some rt _ tt) in Haot as ->. }
  repeat split.
  unfold Rollback, AssertNoPendingException, CHECK.
  destruct (IsExceptionPending rt), (IsActiveTransaction rt);
    simpl; try reflexivity;
    unfold UndoArrayModifications, array_undo_calls, object_undo_calls,
      UndoInternStringTableModifications, intern_undo_calls; simpl;
    rewrite !entries_empty; reflexivity.
Qed.

Lemma Transaction_new_fresh_witness :
  exists t : Transaction,
    Transaction_new example_env true 100 = Some t /\
    Rollback example_env t = Some (t, []).
Proof.
  destruct (Transaction_new_fresh example_env true 100)
    as (t & Hnew & _ & _ & _ & _ & _ & _ & _ & _ & _ & _ & Hrb);
    [reflexivity|].
  exists t. split; [exact Hnew | exact Hrb].
Defined.

(** ** Undo of an object log *)

Lemma call_field_UndoFieldWrite (obj offset : Z) (fv : FieldValue) :
  call_field (ObjectLog.UndoFieldWrite obj offset fv) = Some (obj, offset).
Proof. unfold ObjectLog.UndoFieldWrite. by destruct (kind fv). Qed.

Lemma elem_of_UndoEntry (rt : Env) (obj : Z) (it : Z * FieldValue) (c : Call) :
  c ∈ ObjectLog.UndoEntry rt obj it <->
  ~ protected_slot rt obj it.1 /\ c = ObjectLog.UndoFieldWrite obj it.1 it.2.
Proof.
  unfold ObjectLog.UndoEntry, protected_slot.
  destruct (Z.eqb_spec it.1 (ClassOffset rt)) as [Hc|Hc].
  { rewrite elem_of_nil. tauto. }
  destruct (IsArrayInstance rt obj); simpl.
  - destruct (Z.eqb_spec it.1 (LengthOffset rt)) as [Hl|Hl].
    + rewrite elem_of_nil. tauto.
    + rewrite list_elem_of_singleton. tauto.
  - rewrite list_elem_of_singleton. intuition congruence.
Qed.

Lemma elem_of_ObjectLog_Undo (rt : Env) (log : ObjectLog.t) (obj : Z) (c : Call) :
  c ∈ ObjectLog.Undo rt log obj <->
  exists offset fv,
    log !! offset = Some fv /\ ~ protected_slot rt obj offset /\
    c = ObjectLog.UndoFieldWrite obj offset fv.
Proof.
  unfold ObjectLog.Undo. rewrite list_elem_of_In, in_flat_map. split.
  - intros ([offset fv] & Hin & Hc).
    apply list_elem_of_In, elem_of_entries in Hin.
    apply list_elem_of_In, elem_of_UndoEntry in Hc as [Hp ->].
    by exists offset, fv.
  - intros (offset & fv & Hl & Hp & ->).
    exists (offset, fv). split.
    + by apply list_elem_of_In, elem_of_entries.
    + by apply list_elem_of_In, elem_of_UndoEntry.
Qed.

(** ** Bit-exact undo *)

Lemma to_unsigned_small (w z : Z) :
  Int.is_unsigned w z -> Int.to_unsigned w z = z.
Proof. intros H. by apply Z.mod_small. Qed.

Lemma to_signed_to_uint64 (w z : Z) :
  0 < w <= 64 -> Int.is_signed w z ->
  Int.to_signed w (Int.to_uint64 z) = z.
Proof.
  unfold Int.is_signed, Int.to_signed, Int.to_uint64, Int.to_unsigned.
  intros Hw Hz.
  assert (Hp : 2 ^ w = 2 * 2 ^ (w - 1)).
  { rewrite <- Z.pow_succ_r by lia. f_equal. lia. }
  assert (H64 : 2 ^ 64 = 2 ^ (64 - w) * 2 ^ w).
  { rewrite <- Z.pow_add_r by lia. f_equal. lia. }
  assert (Hpos : 0 < 2 ^ (w - 1)) by (apply Z.pow_pos_nonneg; lia).
  assert (Hle : 2 ^ w <= 2 ^ 64) by (apply Z.pow_le_mono_r; lia).
  assert (Hm : (z mod 2 ^ 64 + 2 ^ (w - 1)) mod 2 ^ w = z + 2 ^ (w - 1)).
  { destruct (Z_lt_le_dec z 0) as [Hneg|Hnn].
    - assert (z mod 2 ^ 64 = z + 2 ^ 64) as ->.
      { symmetry. apply (Z.mod_unique _ _ (-1)); lia. }
      rewrite H64.
      replace (z + 2 ^ (64 - w) * 2 ^ w + 2 ^ (w - 1))
        with (z + 2 ^ (w - 1) + 2 ^ (64 - w) * 2 ^ w) by lia.
      rewrite Z_mod_plus_full. apply Z.mod_small. lia.
    - rewrite (Z.mod_small z) by lia. apply Z.mod_small. lia. }
  rewrite Hm. lia.
Qed.

Lemma to_unsigned_to_uint64 (w z : Z) :
  0 <= w <= 64 -> Int.is_unsigned w z ->
  Int.to_unsigned w (Int.to_uint64 z) = z.
Proof.
  unfold Int.is_unsigned, Int.to_uint64. intros Hw Hz.
  assert (Hle : 2 ^ w <= 2 ^ 64) by (apply Z.pow_le_mono_r; lia).
  rewrite (to_unsigned_small 64), (to_unsigned_small w);
    unfold Int.is_unsigned; lia.
Qed.

Lemma LogValueOfKind_eq (k : FieldValueKind) (offset v : Z) (vol : bool) :
  LogValueOfKind k offset v vol = ObjectLog.LogValue k offset (raw_value k v) vol.
Proof. by destruct k. Qed.

(** Undoing the entry logged for a field of any of the seven kinds calls the
    setter of that kind, plain or volatile as logged, with the very value
    that was logged. *)
Lemma UndoFieldWrite_bit_exact
    (k : FieldValueKind) (obj offset v : Z) (vol : bool) :
  field_value_in_range k v ->
  ObjectLog.UndoFieldWrite obj offset (mkFieldValue (raw_value k v) k vol)
  = SetFieldOfKind k vol obj offset v.
Proof.
  intros Hv. unfold ObjectLog.UndoFieldWrite. destruct k; simpl in *; f_equal.
  - apply (to_unsigned_to_uint64 8); [lia|done].
  - apply (to_signed_to_uint64 8); [lia|done].
  - apply (to_unsigned_to_uint64 16); [lia|done].
  - apply (to_signed_to_uint64 16); [lia|done].
  - apply (to_unsigned_to_uint64 32); [lia|done].
Qed.

(** Undoing the entry logged for an element of an array of one of the six
    integer types stores the very value that was logged (the caller of
    [RecordWriteArray] converts the element to [uint64_t]). *)
Lemma UndoArrayWrite_integer_bit_exact
    (type : PrimitiveType) (array index v : Z) :
  element_in_range type v ->
  ArrayLog.UndoArrayWrite array type index (Int.to_uint64 v)
  = Some (SetWithoutChecks type array index v).
Proof.
  intros Hv. destruct type; simpl in *; try done; do 2 f_equal.
  - apply (to_unsigned_to_uint64 8); [lia|done].
  - apply (to_signed_to_uint64 8); [lia|done].
  - apply (to_unsigned_to_uint64 16); [lia|done].
  - apply (to_signed_to_uint64 16); [lia|done].
  - apply (to_signed_to_uint64 32); [lia|done].
  - apply (to_signed_to_uint64 64); [lia|done].
Qed.

(** ** The protected slots *)

(** C5.  [ObjectLog::Undo] on [obj] writes neither the class slot nor, when
    [obj] is an array instance, the length slot, whatever was logged there.
    Every other logged offset is written back: for the entry logged for a
    field of kind [k] that held [v], the call is the setter of [k] on [obj]
    at that offset, plain or volatile as logged, with [v].  It makes no
    other call: each one is the setter of the kind, and the volatility, of
    an entry logged at an offset that is not one of the two slots. *)
Theorem ObjectLog_Undo_protected_slots
    (rt : Env) (log : ObjectLog.t) (obj : Z) :
  Forall (fun c =>
            call_field c <> Some (obj, ClassOffset rt) /\
            (IsArrayInstance rt obj = true ->
             call_field c <> Some (obj, LengthOffset rt)))
         (ObjectLog.Undo rt log obj) /\
  (forall k offset v vol,
     log !! offset = Some (mkFieldValue (raw_value k v) k vol) ->
     field_value_in_range k v ->
     offset <> ClassOffset rt ->
     ~ (IsArrayInstance rt obj = true /\ offset = LengthOffset rt) ->
     SetFieldOfKind k vol obj offset v ∈ ObjectLog.Undo rt log obj) /\
  (forall c : Call,
     c ∈ ObjectLog.Undo rt log obj ->
     exists offset fv,
       log !! offset = Some fv /\
       offset <> ClassOffset rt /\
       ~ (IsArrayInstance rt obj = true /\ offset = LengthOffset rt) /\
       c = SetFieldOfKind (kind fv) (is_volatile fv) obj offset
             (call_value c)) /\
  (forall c : Call,
     c ∈ ObjectLog.Undo rt log obj <->
     exists offset fv,
       log !! offset = Some fv /\
       offset <> ClassOffset rt /\
       ~ (IsArrayInstance rt obj = true /\ offset = LengthOffset rt) /\
       c = ObjectLog.UndoFieldWrite obj offset fv).
Proof.
  split; [|split; [|split]].
  - apply Forall_forall. intros c Hc.
    apply elem_of_ObjectLog_Undo in Hc as (offset & fv & _ & Hp & ->).
    rewrite call_field_UndoFieldWrite. unfold protected_slot in Hp.
    split; [|intros Harr]; intros [= ->]; tauto.
  - intros k offset v vol Hl Hv Hc Hlen.
    apply elem_of_ObjectLog_Undo.
    exists offset, (mkFieldValue (raw_value k v) k vol).
    split; [done|]. split; [unfold protected_slot; tauto|].
    symmetry. by apply UndoFieldWrite_bit_exact.
  - intros c Hc.
    apply elem_of_ObjectLog_Undo in Hc as (offset & fv & Hl & Hp & ->).
    exists offset, fv. unfold protected_slot in Hp.
    split; [done|]. split; [tauto|]. split; [tauto|].
    unfold ObjectLog.UndoFieldWrite. by destruct (kind fv).
  - intros c. rewrite elem_of_ObjectLog_Undo. unfold protected_slot.
    split; intros (offset & fv & Hl & H); exists offset, fv; tauto.
Qed.

Lemma ObjectLog_Undo_protected_slots_witness :
  SetField32 false 2000 12 7
    ∈ ObjectLog.Undo example_env example_array_object_log 2000 /\
  Forall (fun c =>
            call_field c <> Some (2000, ClassOffset example_env) /\
            (IsArrayInstance example_env 2000 = true ->
             call_field c <> Some (2000, LengthOffset example_env)))
         (ObjectLog.Undo example_env example_array_object_log 2000).
Proof.
  destruct (ObjectLog_Undo_protected_slots example_env
              example_array_object_log 2000) as (Hskip & Hback & _).
  split; [|exact Hskip].
  apply (Hback k32Bits 12 7 false).
  - vm_compute. reflexivity.
  - simpl. unfold Int.is_unsigned. simpl. lia.
  - simpl. lia.
  - simpl. intros [_ H]. lia.
Defined.

(** An array with entries logged at its class slot (0), its length slot (8)
    and its first element (12): only the element is written back. *)
Example ObjectLog_Undo_array_example :
  ObjectLog.Undo example_env example_array_object_log 2000
  = [SetField32 false 2000 12 7].
Proof. vm_compute. reflexivity. Qed.

Lemma entries_singleton {A : Type} (k : Z) (x : A) :
  entries ({[ k := x ]} : gmap Z A) = [(k, x)].
Proof. unfold entries. by rewrite map_to_list_singleton. Qed.

(** X17.  A field of any kind written once and undone: one call, to the setter of
    the kind, plain or volatile as recorded, with the value recorded. *)
Lemma ObjectLog_log_then_undo (rt : Env) (k : FieldValueKind)
    (obj offset v : Z) (vol : bool) :
  field_value_in_range k v -> ~ protected_slot rt obj offset ->
  ObjectLog.Undo rt (LogValueOfKind k offset v vol ∅) obj
  = [SetFieldOfKind k vol obj offset v].
Proof.
  intros Hv Hp. rewrite LogValueOfKind_eq.
  unfold ObjectLog.LogValue, ObjectLog.Undo.
  rewrite lookup_empty, insert_empty, entries_singleton. simpl.
  rewrite app_nil_r. unfold ObjectLog.UndoEntry. simpl.
  unfold protected_slot in Hp.
  destruct (Z.eqb_spec offset (ClassOffset rt)) as [|_]; [tauto|].
  destruct (IsArrayInstance rt obj); simpl;
    [destruct (Z.eqb_spec offset (LengthOffset rt)) as [|_]; [tauto|]|];
    by rewrite UndoFieldWrite_bit_exact.
Qed.

(** X18.  An element of an array of an integer type written once and undone. *)
Lemma ArrayLog_log_then_undo (rt : Env) (array index v : Z) :
  array <> 0 -> IsArrayInstance rt array = true ->
  element_in_range (ComponentPrimitiveType rt array) v ->
  ArrayLog.Undo rt (ArrayLog.LogValue index (Int.to_uint64 v) ∅) array
  = Some [SetWithoutChecks (ComponentPrimitiveType rt array) array index v].
Proof.
  intros Ha Hi Hv. unfold ArrayLog.Undo, ArrayLog.LogValue.
  assert (DCHECK rt (negb (array =? 0)) = Some tt) as ->.
  { apply DCHECK_Some. intros _. apply negb_true_iff. lia. }
  rewrite Hi, DCHECK_true, lookup_empty, insert_empty, entries_singleton.
  simpl. by rewrite UndoArrayWrite_integer_bit_exact.
Qed.

(** *** Float and double arrays *)

(** The conversion of an integer from 2 on is a floating-point number from
    2.0 on: its exponent field is above the bias. *)
Lemma of_uint64_from_two (p bias v : Z) :
  0 < p -> 0 <= bias -> 2 <= v ->
  (1 + bias) * 2 ^ (p - 1) <= Fp.of_uint64 p bias v.
Proof.
  intros Hp Hb Hv. unfold Fp.of_uint64.
  destruct (Z.eqb_spec v 0) as [|_]; [lia|].
  pose proof (Z.log2_spec v ltac:(lia)) as [Hlo Hhi].
  assert (He : 1 <= Z.log2 v).
  { change 1 with (Z.log2 2). by apply Z.log2_le_mono. }
  set (e := Z.log2 v) in *.
  assert (Hpp : 0 < 2 ^ (p - 1)) by (apply Z.pow_pos_nonneg; lia).
  match goal with
  | |- _ <= (e + bias) * _ + (?m - _) =>
      assert (Hm : 2 ^ (p - 1) <= m);
      [|assert ((1 + bias) * 2 ^ (p - 1) <= (e + bias) * 2 ^ (p - 1))
          by (apply Z.mul_le_mono_nonneg_r; lia); lia]
  end.
  destruct (Z.ltb_spec e p) as [Hep|Hep].
  - replace (2 ^ (p - 1)) with (2 ^ e * 2 ^ (p - 1 - e)).
    + apply Z.mul_le_mono_nonneg_r; [apply Z.pow_nonneg|]; lia.
    + rewrite <- Z.pow_add_r by lia. f_equal. lia.
  - set (shift := e - (p - 1)).
    assert (Hq : 2 ^ (p - 1) <= v / 2 ^ shift).
    { apply Z.div_le_lower_bound; [apply Z.pow_pos_nonneg; lia|].
      rewrite <- Z.pow_add_r by (unfold shift; lia).
      replace (shift + (p - 1)) with e by (unfold shift; lia). done. }
    destruct (_ || _); lia.
Qed.

(** No logged value makes the undo of a float array element store 1.5
    (bit pattern [0x3FC00000]): the number stored is the logged integer
    converted to [float], never a number with a fractional part. *)
Lemma float_of_uint64_never_one_and_a_half (value : Z) :
  Fp.float_of_uint64 value <> 0x3FC00000.
Proof.
  unfold Fp.float_of_uint64.
  destruct (Z_lt_le_dec value 2) as [Hlt|Hge].
  - destruct (Z_lt_le_dec value 0) as [Hneg|Hnn].
    + unfold Fp.of_uint64.
      destruct (Z.eqb_spec value 0) as [|_]; [lia|].
      rewrite Z.log2_nonpos by lia.
      change (0 <? 24) with true. cbv iota.
      change (2 ^ (24 - 1 - 0)) with 8388608.
      change (2 ^ (24 - 1)) with 8388608. lia.
    + assert (value = 0 \/ value = 1) as [-> | ->] by lia; by vm_compute.
  - pose proof (of_uint64_from_two 24 127 value) as H.
    change ((1 + 127) * 2 ^ (24 - 1)) with 1073741824 in H. lia.
Qed.

(** C2 at a float array: whatever raw value was logged for an element that
    held 1.5, undoing the write does not store 1.5 back.  The element is
    written with [static_cast<float>] of the logged integer, a conversion of
    its value, where the six integer types and the seven field kinds get the
    logged bits back. *)
Theorem UndoArrayWrite_float_not_bit_exact (array index value : Z) :
  ArrayLog.UndoArrayWrite array kPrimFloat index value
  <> Some (SetWithoutChecks kPrimFloat array index 0x3FC00000) /\
  ArrayLog.UndoArrayWrite array kPrimFloat index 0x3FC00000
  = Some (SetWithoutChecks kPrimFloat array index 0x4E7F0000) /\
  ArrayLog.UndoArrayWrite array kPrimFloat index 1
  = Some (SetWithoutChecks kPrimFloat array index 0x3F800000) /\
  ArrayLog.UndoArrayWrite array kPrimDouble index 1
  = Some (SetWithoutChecks kPrimDouble array index 0x3FF0000000000000).
Proof.
  split; [|by vm_compute].
  simpl. intros [= H]. by apply float_of_uint64_never_one_and_a_half in H.
Qed.

(** ** The calls of a rollback *)

Lemma elem_of_mapM {A B : Type} (f : A -> option B) (l : list A) (k : list B)
    (y : B) :
  mapM f l = Some k -> (y ∈ k <-> exists x, x ∈ l /\ f x = Some y).
Proof.
  intros H. apply mapM_Some in H.
  induction H as [|x z l k Hf _ IH].
  - split; [by intros ?%elem_of_nil|]. by intros (x & ?%elem_of_nil & _).
  - rewrite elem_of_cons, IH. split.
    + intros [->|(x' & Hin & Hfx)].
      * exists x. split; [left|done].
      * exists x'. split; [by right|done].
    + intros (x' & [->|Hin]%elem_of_cons & Hfx).
      * left. congruence.
      * right. by exists x'.
Qed.

Lemma elem_of_object_undo_calls (rt : Env) (logs : gmap Z ObjectLog.t)
    (c : Call) :
  c ∈ object_undo_calls rt logs <->
  exists obj log, logs !! obj = Some log /\ c ∈ ObjectLog.Undo rt log obj.
Proof.
  unfold object_undo_calls. rewrite list_elem_of_In, in_flat_map. split.
  - intros ([obj log] & Hin & Hc).
    apply list_elem_of_In, elem_of_entries in Hin.
    apply list_elem_of_In in Hc. by exists obj, log.
  - intros (obj & log & Hl & Hc). exists (obj, log).
    split; apply list_elem_of_In; [by apply elem_of_entries|done].
Qed.

Lemma elem_of_ArrayLog_Undo (rt : Env) (log : ArrayLog.t) (array : Z)
    (calls : list Call) (c : Call) :
  ArrayLog.Undo rt log array = Some calls ->
  (c ∈ calls <->
   exists index raw,
     log !! index = Some raw /\
     ArrayLog.UndoArrayWrite array (ComponentPrimitiveType rt array) index raw
     = Some c).
Proof.
  unfold ArrayLog.Undo. intros H.
  apply bind_Some in H as (_ & _ & H).
  apply bind_Some in H as (_ & _ & H).
  rewrite (elem_of_mapM _ _ _ _ H). split.
  - intros ([index raw] & Hin%elem_of_entries & Hc). by exists index, raw.
  - intros (index & raw & Hl & Hc). exists (index, raw).
    split; [by apply elem_of_entries|done].
Qed.

Lemma elem_of_array_undo_calls (rt : Env) (logs : gmap Z ArrayLog.t)
    (calls : list Call) (c : Call) :
  array_undo_calls rt logs = Some calls ->
  (c ∈ calls <->
   exists array log index raw,
     logs !! array = Some log /\ log !! index = Some raw /\
     ArrayLog.UndoArrayWrite array (ComponentPrimitiveType rt array) index raw
     = Some c).
Proof.
  unfold array_undo_calls. intros H.
  apply bind_Some in H as (per_array & Hm & [= <-]).
  rewrite list_elem_of_In, in_concat. split.
  - intros (cs & Hcs & Hc). apply list_elem_of_In in Hcs, Hc.
    apply (elem_of_mapM _ _ _ _ Hm) in Hcs
      as ([array log] & Hin%elem_of_entries & Hu).
    apply (elem_of_ArrayLog_Undo _ _ _ _ c Hu) in Hc
      as (index & raw & Hl & Hw).
    by exists array, log, index, raw.
  - intros (array & log & index & raw & Hla & Hl & Hw).
    apply elem_of_entries in Hla.
    apply mapM_Some in Hm.
    apply list_elem_of_lookup in Hla as [n Hn].
    destruct (Forall2_lookup_l _ _ _ _ _ Hm Hn) as (cs & Hcs & Hu).
    exists cs. split; apply list_elem_of_In.
    + by eapply list_elem_of_lookup_2.
    + apply (elem_of_ArrayLog_Undo _ _ _ _ c Hu). by exists index, raw.
Qed.

Lemma elem_of_intern_undo_calls (rt : Env) (logs : list InternStringLog.t)
    (calls : list Call) (c : Call) :
  intern_undo_calls rt logs = Some calls ->
  (c ∈ calls <-> exists log, log ∈ logs /\ InternStringLog.Undo rt log = Some c).
Proof. apply elem_of_mapM. Qed.

(** The calls of a rollback that returns: the undo of the object logs, then
    of the array logs, then of the intern string logs, then of the resolve
    string logs, each call made while the transaction is rolling back. *)
Lemma Rollback_Some (rt : Env) (t t' : Transaction) (events : list Event) :
  Rollback rt t = Some (t', events) <->
  IsExceptionPending rt = false /\
  IsActiveTransaction rt = false /\
  exists arrays strings,
    array_undo_calls rt (array_logs_ t) = Some arrays /\
    intern_undo_calls rt (intern_string_logs_ t) = Some strings /\
    events = map (pair true)
               (object_undo_calls rt (object_logs_ t) ++ arrays ++ strings ++
                resolve_undo_calls (resolve_string_logs_ t)) /\
    t' = rolled_back t.
Proof.
  unfold Rollback, AssertNoPendingException, UndoObjectModifications,
    UndoArrayModifications, UndoInternStringTableModifications,
    UndoResolveStringModifications, emit.
  simpl. split.
  - intros H.
    apply bind_Some in H as ([] & Hd & H).
    apply CHECK_Some, negb_true_iff in Hd.
    apply bind_Some in H as ([] & Hc & H).
    apply CHECK_Some, negb_true_iff in Hc.
    apply bind_Some in H as ([t2 e2] & H2 & H).
    apply bind_Some in H2 as (arrays & Ha & [= <- <-]).
    apply bind_Some in H as ([t3 e3] & H3 & H).
    apply bind_Some in H3 as (strings & Hs & [= <- <-]).
    simpl in *. injection H as <- <-.
    split; [done|].
    split; [done|].
    exists arrays, strings.
    split; [done|]. split; [done|]. split; [|done].
    by rewrite !map_app.
  - intros (Hd & Hc & arrays & strings & Ha & Hs & -> & ->).
    rewrite Hd, Hc. simpl. rewrite Ha. simpl. rewrite Hs. simpl.
    by rewrite !map_app.
Qed.

Lemma UndoArrayWrite_element (array index raw : Z) (type : PrimitiveType)
    (c : Call) :
  ArrayLog.UndoArrayWrite array type index raw = Some c ->
  call_element c = Some (array, index) /\ call_field c = None /\
  is_intern_call c = false /\ is_dex_cache_call c = false.
Proof. destruct type; simpl; intros [= <-]; done. Qed.

Lemma InternStringLog_Undo_intern (rt : Env) (log : InternStringLog.t)
    (c : Call) :
  InternStringLog.Undo rt log = Some c ->
  is_intern_call c = true /\ call_field c = None /\ call_element c = None.
Proof.
  unfold InternStringLog.Undo. intros H.
  apply bind_Some in H as (_ & _ & H).
  destruct (InternStringLog.string_op_ log),
    (InternStringLog.string_kind_ log); injection H as <-; done.
Qed.

Lemma object_undo_calls_kind (rt : Env) (logs : gmap Z ObjectLog.t) :
  Forall (fun c => is_field_call c = true) (object_undo_calls rt logs).
Proof.
  apply Forall_forall. intros c Hc.
  apply elem_of_object_undo_calls in Hc as (obj & log & _ & Hc).
  apply elem_of_ObjectLog_Undo in Hc as (offset & fv & _ & _ & ->).
  unfold is_field_call. rewrite call_field_UndoFieldWrite.
  by apply bool_decide_eq_true.
Qed.

Lemma array_undo_calls_kind (rt : Env) (logs : gmap Z ArrayLog.t)
    (calls : list Call) :
  array_undo_calls rt logs = Some calls ->
  Forall (fun c => is_element_call c = true) calls.
Proof.
  intros Ha. apply Forall_forall. intros c Hc.
  apply (elem_of_array_undo_calls _ _ _ _ Ha) in Hc
    as (array & log & index & raw & _ & _ & Hw).
  apply UndoArrayWrite_element in Hw as (Hw & _).
  unfold is_element_call. rewrite Hw. by apply bool_decide_eq_true.
Qed.

Lemma intern_undo_calls_kind (rt : Env) (logs : list InternStringLog.t)
    (calls : list Call) :
  intern_undo_calls rt logs = Some calls ->
  Forall (fun c => is_intern_call c = true) calls.
Proof.
  intros Hs. apply Forall_forall. intros c Hc.
  apply (elem_of_intern_undo_calls _ _ _ _ Hs) in Hc as (log & _ & Hu).
  by apply InternStringLog_Undo_intern in Hu as (Hu & _).
Qed.

Lemma resolve_undo_calls_kind (logs : list ResolveStringLog.t) :
  Forall (fun c => is_dex_cache_call c = true) (resolve_undo_calls logs).
Proof.
  apply Forall_forall. intros c Hc. unfold resolve_undo_calls in Hc.
  by apply list_elem_of_fmap in Hc as (log & -> & _).
Qed.



(** ** Intern string logs *)

Lemma RecordString_Some (rt : Env) (kind : StringKind) (op : StringOp) (s : Z)
    (t t' : Transaction) :
  RecordString rt kind op s t = Some t' ->
  t' = set_intern_string_logs
         (InternStringLog.mk s kind op :: intern_string_logs_ t) t.
Proof.
  intros H.
  destruct kind, op; simpl in H;
    apply bind_Some in H as (log & Hnew & H);
    apply bind_Some in Hnew as (_ & _ & [= <-]);
    apply bind_Some in H as (_ & _ & [= <-]); done.
Qed.


Lemma filter_none {A : Type} (P : A -> Prop) `{forall x, Decision (P x)}
    (l : list A) :
  Forall (fun x => ~ P x) l -> filter P l = [].
Proof.
  induction 1 as [|x l Hx _ IH]; [done|].
  by rewrite filter_cons_False.
Qed.

Lemma filter_all {A : Type} (P : A -> Prop) `{forall x, Decision (P x)}
    (l : list A) :
  Forall P l -> filter P l = l.
Proof.
  induction 1 as [|x l Hx _ IH]; [done|].
  rewrite filter_cons_True by done. by rewrite IH.
Qed.

(** The intern table calls of a rollback are the undo of the intern string
    logs, in the order of the list. *)
Lemma Rollback_intern_calls (rt : Env) (t t' : Transaction)
    (events : list Event) :
  Rollback rt t = Some (t', events) ->
  mapM (InternStringLog.Undo rt) (intern_string_logs_ t)
  = Some (filter (fun c => is_intern_call c = true) events.*2).
Proof.
  intros H.
  apply Rollback_Some in H as (_ & _ & arrays & strings & Ha' & Hs & -> & _).
  pose proof (object_undo_calls_kind rt (object_logs_ t)) as Ho.
  pose proof (array_undo_calls_kind _ _ _ Ha') as Ha.
  pose proof (intern_undo_calls_kind _ _ _ Hs) as Hi.
  pose proof (resolve_undo_calls_kind (resolve_string_logs_ t)) as Hr.
  unfold intern_undo_calls in Hs. rewrite Hs. f_equal.
  set (objects := object_undo_calls rt (object_logs_ t)) in *.
  set (resolves := resolve_undo_calls (resolve_string_logs_ t)) in *.
  rewrite <- list_fmap_compose.
  unfold compose. simpl. rewrite list_fmap_id.
  rewrite !filter_app.
  rewrite (filter_none _ objects), (filter_none _ arrays),
    (filter_none _ resolves), (filter_all _ strings); first by rewrite app_nil_r.
  - done.
  - eapply Forall_impl; [exact Hr|]. intros c Hc. by destruct c.
  - eapply Forall_impl; [exact Ha|]. intros c Hc. by destruct c.
  - eapply Forall_impl; [exact Ho|]. intros c Hc. by destruct c.
Qed.




(** ** First write wins *)

Lemma RecordWriteField_Some (rt : Env) (obj : Z)
    (f : ObjectLog.t -> ObjectLog.t) (t t' : Transaction) :
  RecordWriteField rt obj f t = Some t' ->
  t' = set_object_logs
         (<[obj := f (default ∅ (object_logs_ t !! obj))]> (object_logs_ t)) t.
Proof.
  unfold RecordWriteField. intros H.
  apply bind_Some in H as (_ & _ & H).
  apply bind_Some in H as (_ & _ & H). by injection H as <-.
Qed.

Lemma RecordWriteFieldOfKind_eq (rt : Env) (k : FieldValueKind)
    (obj offset v : Z) (vol : bool) :
  RecordWriteFieldOfKind rt k obj offset v vol
  = RecordWriteField rt obj (ObjectLog.LogValue k offset (raw_value k v) vol).
Proof. by destruct k. Qed.

Lemma RecordWriteArray_Some (rt : Env) (array index value : Z)
    (t t' : Transaction) :
  RecordWriteArray rt array index value t = Some t' ->
  t' = set_array_logs
         (<[array := ArrayLog.LogValue index value
                       (default ∅ (array_logs_ t !! array))]> (array_logs_ t))
         t.
Proof.
  unfold RecordWriteArray. intros H.
  do 4 apply bind_Some in H as (_ & _ & H). by injection H as <-.
Qed.

Lemma RecordResolveString_Some (rt : Env) (dex_cache string_idx : Z)
    (t t' : Transaction) :
  RecordResolveString rt dex_cache string_idx t = Some t' ->
  t' = set_resolve_string_logs
         (resolve_string_logs_ t ++ [ResolveStringLog.mk dex_cache string_idx])
         t.
Proof.
  unfold RecordResolveString, ResolveStringLog.new. intros H.
  do 3 apply bind_Some in H as (_ & _ & H).
  apply bind_Some in H as (log & Hlog & H).
  do 2 apply bind_Some in Hlog as (_ & _ & Hlog).
  injection Hlog as <-. by injection H as <-.
Qed.

Lemma ObjectLog_LogValue_keeps (k : FieldValueKind) (offset v : Z) (vol : bool)
    (log : ObjectLog.t) (offset' : Z) (fv : FieldValue) :
  log !! offset' = Some fv ->
  ObjectLog.LogValue k offset v vol log !! offset' = Some fv.
Proof.
  intros H. unfold ObjectLog.LogValue.
  destruct (log !! offset) eqn:Ho; [done|].
  rewrite lookup_insert_ne; [done|congruence].
Qed.

Lemma ObjectLog_LogValue_first (k : FieldValueKind) (offset v : Z) (vol : bool)
    (log : ObjectLog.t) :
  log !! offset = None ->
  ObjectLog.LogValue k offset v vol log !! offset = Some (mkFieldValue v k vol).
Proof.
  intros H. unfold ObjectLog.LogValue. rewrite H. apply lookup_insert_eq.
Qed.

Lemma ArrayLog_LogValue_keeps (index v : Z) (log : ArrayLog.t)
    (index' raw : Z) :
  log !! index' = Some raw -> ArrayLog.LogValue index v log !! index' = Some raw.
Proof.
  intros H. unfold ArrayLog.LogValue.
  destruct (log !! index) eqn:Ho; [done|].
  rewrite lookup_insert_ne; [done|congruence].
Qed.

Lemma ArrayLog_LogValue_first (index v : Z) (log : ArrayLog.t) :
  log !! index = None -> ArrayLog.LogValue index v log !! index = Some v.
Proof.
  intros H. unfold ArrayLog.LogValue. rewrite H. apply lookup_insert_eq.
Qed.

Lemma entry_at_field (t : Transaction) (obj offset : Z) (e : LogEntry) :
  entry_at t (FieldLocation obj offset) = Some e <->
  exists log fv,
    object_logs_ t !! obj = Some log /\ log !! offset = Some fv /\
    e = FieldEntry fv.
Proof.
  simpl. rewrite fmap_Some. split.
  - intros (fv & Hb & ->). apply bind_Some in Hb as (log & Hl & Hf).
    by exists log, fv.
  - intros (log & fv & Hl & Hf & ->). exists fv. split; [|done].
    apply bind_Some. by exists log.
Qed.

Lemma entry_at_element (t : Transaction) (array index : Z) (e : LogEntry) :
  entry_at t (ElementLocation array index) = Some e <->
  exists log raw,
    array_logs_ t !! array = Some log /\ log !! index = Some raw /\
    e = ElementEntry raw.
Proof.
  simpl. rewrite fmap_Some. split.
  - intros (raw & Hb & ->). apply bind_Some in Hb as (log & Hl & Hf).
    by exists log, raw.
  - intros (log & raw & Hl & Hf & ->). exists raw. split; [|done].
    apply bind_Some. by exists log.
Qed.

(** A recording operation leaves every entry of the logs as it is. *)
Lemma record_keeps_entry (rt : Env) (op : RecordOp) (t t' : Transaction)
    (loc : Location) (e : LogEntry) :
  entry_at t loc = Some e -> record rt op t = Some t' ->
  entry_at t' loc = Some e.
Proof.
  intros He Hr. destruct op as [k obj off v vol|array index v|dc idx|kind op s];
    simpl in Hr.
  - rewrite RecordWriteFieldOfKind_eq in Hr.
    apply RecordWriteField_Some in Hr as ->.
    destruct loc as [obj' off'|]; [|done].
    apply entry_at_field in He as (log & fv & Hl & Hf & ->).
    apply entry_at_field. simpl.
    destruct (decide (obj = obj')) as [->|Hne].
    + rewrite lookup_insert_eq, Hl. simpl.
      eexists _, fv. split; [done|].
      split; [|done]. by apply ObjectLog_LogValue_keeps.
    + rewrite lookup_insert_ne by done. by exists log, fv.
  - apply RecordWriteArray_Some in Hr as ->.
    destruct loc as [|array' index']; [done|].
    apply entry_at_element in He as (log & raw & Hl & Hf & ->).
    apply entry_at_element. simpl.
    destruct (decide (array = array')) as [->|Hne].
    + rewrite lookup_insert_eq, Hl. simpl.
      eexists _, raw. split; [done|].
      split; [|done]. by apply ArrayLog_LogValue_keeps.
    + rewrite lookup_insert_ne by done. by exists log, raw.
  - apply RecordResolveString_Some in Hr as ->. by destruct loc.
  - apply RecordString_Some in Hr as ->. by destruct loc.
Qed.

(** The first recording operation on a location logs its arguments. *)
Lemma record_first_entry (rt : Env) (op : RecordOp) (t t' : Transaction)
    (loc : Location) (e : LogEntry) :
  written op = Some (loc, e) -> entry_at t loc = None ->
  record rt op t = Some t' -> entry_at t' loc = Some e.
Proof.
  intros Hw He Hr. destruct op as [k obj off v vol|array index v| |];
    simpl in Hw, Hr; try done; injection Hw as <- <-.
  - rewrite RecordWriteFieldOfKind_eq in Hr.
    apply RecordWriteField_Some in Hr as ->.
    apply entry_at_field. simpl. rewrite lookup_insert_eq.
    eexists _, _. split; [done|]. split; [|done].
    apply ObjectLog_LogValue_first.
    simpl in He. destruct (object_logs_ t !! obj) as [log|]; simpl in *.
    + by destruct (log !! off).
    + done.
  - apply RecordWriteArray_Some in Hr as ->.
    apply entry_at_element. simpl. rewrite lookup_insert_eq.
    eexists _, _. split; [done|]. split; [|done].
    apply ArrayLog_LogValue_first.
    simpl in He. destruct (array_logs_ t !! array) as [log|]; simpl in *.
    + by destruct (log !! index).
    + done.
Qed.

Lemma records_keep_entry (rt : Env) (ops : list RecordOp) (t t' : Transaction)
    (loc : Location) (e : LogEntry) :
  entry_at t loc = Some e -> records rt ops t = Some t' ->
  entry_at t' loc = Some e.
Proof.
  revert t. induction ops as [|op ops IH]; intros t He Hr; simpl in Hr.
  - by injection Hr as <-.
  - apply bind_Some in Hr as (t1 & H1 & Hr).
    eapply IH; [|exact Hr]. by eapply record_keeps_entry.
Qed.

Lemma undo_call_field (rt : Env) (obj offset : Z) (fv : FieldValue) (c : Call) :
  undo_call rt (FieldLocation obj offset) (FieldEntry fv) = Some c <->
  ~ protected_slot rt obj offset /\ c = ObjectLog.UndoFieldWrite obj offset fv.
Proof.
  rewrite <- (elem_of_UndoEntry rt obj (offset, fv) c). simpl.
  unfold ObjectLog.UndoEntry. simpl.
  destruct (offset =? ClassOffset rt);
    [|destruct (IsArrayInstance rt obj && (offset =? LengthOffset rt))].
  - rewrite elem_of_nil. split; [done|tauto].
  - rewrite elem_of_nil. split; [done|tauto].
  - rewrite list_elem_of_singleton. split; congruence.
Qed.

Lemma call_location_UndoFieldWrite (obj offset : Z) (fv : FieldValue) :
  call_location (ObjectLog.UndoFieldWrite obj offset fv)
  = Some (FieldLocation obj offset).
Proof. unfold call_location. by rewrite call_field_UndoFieldWrite. Qed.

Lemma call_location_UndoArrayWrite (array index raw : Z) (type : PrimitiveType)
    (c : Call) :
  ArrayLog.UndoArrayWrite array type index raw = Some c ->
  call_location c = Some (ElementLocation array index).
Proof.
  intros H. apply UndoArrayWrite_element in H as (He & Hf & _).
  unfold call_location. by rewrite Hf, He.
Qed.

(** The calls of a rollback and their locations. *)
Lemma Rollback_calls (rt : Env) (t t' : Transaction) (events : list Event)
    (ev : Event) :
  Rollback rt t = Some (t', events) -> ev ∈ events ->
  ev.1 = true /\
  ((exists obj log offset fv,
      object_logs_ t !! obj = Some log /\ log !! offset = Some fv /\
      ~ protected_slot rt obj offset /\
      ev.2 = ObjectLog.UndoFieldWrite obj offset fv) \/
   (exists array log index raw,
      array_logs_ t !! array = Some log /\ log !! index = Some raw /\
      ArrayLog.UndoArrayWrite array (ComponentPrimitiveType rt array) index raw
      = Some ev.2) \/
   call_location ev.2 = None).
Proof.
  intros H Hev.
  apply Rollback_Some in H as (_ & _ & arrays & strings & Ha & Hs & -> & _).
  apply list_elem_of_fmap in Hev as (c & -> & Hc). simpl. split; [done|].
  rewrite !elem_of_app in Hc. destruct Hc as [Hc|[Hc|[Hc|Hc]]].
  - left. apply elem_of_object_undo_calls in Hc as (obj & log & Hl & Hc).
    apply elem_of_ObjectLog_Undo in Hc as (offset & fv & Hf & Hp & ->).
    by exists obj, log, offset, fv.
  - right; left. by apply (elem_of_array_undo_calls _ _ _ _ Ha) in Hc.
  - right; right.
    apply (elem_of_intern_undo_calls _ _ _ _ Hs) in Hc as (log & _ & Hu).
    apply InternStringLog_Undo_intern in Hu as (_ & Hf & He).
    unfold call_location. by rewrite Hf, He.
  - right; right. unfold resolve_undo_calls in Hc.
    by apply list_elem_of_fmap in Hc as (log & -> & _).
Qed.

(** A rollback that returns has made the call that undoes the entry of a
    location, and no other call on that location. *)
Lemma Rollback_undoes_entry (rt : Env) (t t' : Transaction)
    (events : list Event) (loc : Location) (e : LogEntry) :
  Rollback rt t = Some (t', events) -> entry_at t loc = Some e ->
  (forall c, undo_call rt loc e = Some c -> (true, c) ∈ events) /\
  (forall ev, ev ∈ events -> call_location ev.2 = Some loc ->
              undo_call rt loc e = Some ev.2).
Proof.
  intros Hr He. split.
  - intros c Hc.
    apply Rollback_Some in Hr as (_ & _ & arrays & strings & Ha & Hs & -> & _).
    apply list_elem_of_fmap_2. rewrite !elem_of_app.
    destruct loc as [obj offset|array index].
    + apply entry_at_field in He as (log & fv & Hl & Hf & ->).
      apply undo_call_field in Hc as [Hp ->].
      left. apply elem_of_object_undo_calls. exists obj, log.
      split; [done|]. apply elem_of_ObjectLog_Undo. by exists offset, fv.
    + apply entry_at_element in He as (log & raw & Hl & Hf & ->).
      right; left. apply (elem_of_array_undo_calls _ _ _ _ Ha).
      by exists array, log, index, raw.
  - intros ev Hev Hloc.
    destruct (Rollback_calls _ _ _ _ _ Hr Hev)
      as (_ & [(obj & log & offset & fv & Hl & Hf & Hp & Hc)
              |[(array & log & index & raw & Hl & Hf & Hc)|Hnone]]).
    + rewrite Hc, call_location_UndoFieldWrite in Hloc.
      injection Hloc as <-.
      apply entry_at_field in He as (log' & fv' & Hl' & Hf' & ->).
      rewrite Hl in Hl'. injection Hl' as <-.
      rewrite Hf in Hf'. injection Hf' as <-.
      by apply undo_call_field.
    + rewrite (call_location_UndoArrayWrite _ _ _ _ _ Hc) in Hloc.
      injection Hloc as <-.
      apply entry_at_element in He as (log' & raw' & Hl' & Hf' & ->).
      rewrite Hl in Hl'. injection Hl' as <-.
      rewrite Hf in Hf'. injection Hf' as <-.
      done.
    + congruence.
Qed.

(** The call of a rollback on the location of an entry that was logged for
    a field that is not a protected slot, or for an element of an array of
    an integer type: the setter with the value that was recorded. *)
Lemma Rollback_restores_entry (rt : Env) (t t' : Transaction)
    (events : list Event) (loc : Location) (e : LogEntry) (c : Call) :
  Rollback rt t = Some (t', events) -> entry_at t loc = Some e ->
  undo_call rt loc e = Some c ->
  (true, c) ∈ events /\
  (forall ev, ev ∈ events -> call_location ev.2 = Some loc -> ev = (true, c)).
Proof.
  intros Hr He Hc.
  destruct (Rollback_undoes_entry _ _ _ _ _ _ Hr He) as [Hin Honly].
  split; [by apply Hin|].
  intros [b c'] Hev Hloc.
  destruct (Rollback_calls _ _ _ _ _ Hr Hev) as [Hb _].
  specialize (Honly _ Hev Hloc). simpl in *. congruence.
Qed.

(** C1, as stated, fails at the class slot: the write of the class slot of
    the object at 1200 is recorded, and the entry is retained, but the
    rollback makes no call on that slot, so the value recorded by the first
    write is not restored. *)
Lemma first_write_wins_class_slot_counterexample :
  ~ (forall (rt : Env) (t t1 t2 t3 : Transaction) (first : RecordOp)
            (later : list RecordOp) (loc : Location) (e : LogEntry)
            (events : list Event),
       written first = Some (loc, e) ->
       entry_at t loc = None ->
       record rt first t = Some t1 ->
       records rt later t1 = Some t2 ->
       Rollback rt t2 = Some (t3, events) ->
       exists ev, ev ∈ events /\ call_location ev.2 = Some loc).
Proof.
  intros H.
  destruct (H example_env (initial true 1100)
              (set_object_logs
                 {[ 1200 := {[ 0 := mkFieldValue 100 kReference false ]} ]}
                 (initial true 1100))
              (set_object_logs
                 {[ 1200 := {[ 0 := mkFieldValue 100 kReference false ]} ]}
                 (initial true 1100))
              (initial true 1100)
              (OpWriteField kReference 1200 0 100 false) []
              (FieldLocation 1200 0)
              (FieldEntry (mkFieldValue 100 kReference false)) [])
    as (ev & Hev & _).
  - reflexivity.
  - reflexivity.
  - vm_compute. reflexivity.
  - reflexivity.
  - vm_compute. reflexivity.
  - by apply elem_of_nil in Hev.
Qed.

(** C1.  The first recording operation on a location (an object and an
    offset, or an array and an index) logs the value, and for a field the
    kind and the volatility, it is given.  Whatever is recorded afterwards,
    on this location or elsewhere, the entry stays as it is.  A rollback then
    makes one call on the location, and no other: for a field that is not a
    protected slot, the setter of the kind of the first write, plain or
    volatile as it was, with the value of the first write; for an element of
    an array of an integer type, [SetWithoutChecks] with the value of the
    first write.  On a protected slot it makes no call. *)
Theorem first_write_wins
    (rt : Env) (t t1 t2 : Transaction) (first : RecordOp)
    (later : list RecordOp) (loc : Location) (e : LogEntry) :
  written first = Some (loc, e) ->
  entry_at t loc = None ->
  record rt first t = Some t1 ->
  records rt later t1 = Some t2 ->
  entry_at t1 loc = Some e /\
  entry_at t2 loc = Some e /\
  forall t3 events,
    Rollback rt t2 = Some (t3, events) ->
    (forall k obj offset v vol,
       first = OpWriteField k obj offset v vol ->
       (~ protected_slot rt obj offset -> field_value_in_range k v ->
        (true, SetFieldOfKind k vol obj offset v) ∈ events /\
        forall ev, ev ∈ events -> call_location ev.2 = Some loc ->
                   ev = (true, SetFieldOfKind k vol obj offset v)) /\
       (protected_slot rt obj offset ->
        forall ev, ev ∈ events -> call_location ev.2 <> Some loc)) /\
    (forall array index v,
       first = OpWriteArray array index (Int.to_uint64 v) ->
       element_in_range (ComponentPrimitiveType rt array) v ->
       (true, SetWithoutChecks (ComponentPrimitiveType rt array)
                array index v) ∈ events /\
       forall ev, ev ∈ events -> call_location ev.2 = Some loc ->
                  ev = (true, SetWithoutChecks
                                (ComponentPrimitiveType rt array)
                                array index v)).
Proof.
  intros Hw Hnone H1 H2.
  pose proof (record_first_entry _ _ _ _ _ _ Hw Hnone H1) as He1.
  pose proof (records_keep_entry _ _ _ _ _ _ He1 H2) as He2.
  split; [done|]. split; [done|].
  intros t3 events Hr. split.
  - intros k obj offset v vol ->. simpl in Hw. injection Hw as <- <-.
    split.
    + intros Hp Hv. apply (Rollback_restores_entry _ _ _ _ _ _ _ Hr He2).
      apply undo_call_field. split; [done|].
      symmetry. by apply UndoFieldWrite_bit_exact.
    + intros Hp ev Hev Hloc.
      destruct (Rollback_undoes_entry _ _ _ _ _ _ Hr He2) as [_ Honly].
      specialize (Honly ev Hev Hloc).
      apply undo_call_field in Honly as [Hnp _]. by apply Hnp.
  - intros array index v -> Hv. simpl in Hw. injection Hw as <- <-.
    apply (Rollback_restores_entry _ _ _ _ _ _ _ Hr He2).
    simpl. by apply UndoArrayWrite_integer_bit_exact.
Qed.

Lemma first_write_wins_witness :
  exists (t2 t3 : Transaction) (events : list Event),
    records example_env
      [OpWriteField k32Bits 1200 8 0 false;
       OpWriteField k32Bits 1200 8 42 false;
       OpWriteField kByte 1200 8 1 true]
      (initial true 1100) = Some t2 /\
    entry_at t2 (FieldLocation 1200 8)
    = Some (FieldEntry (mkFieldValue 0 k32Bits false)) /\
    Rollback example_env t2 = Some (t3, events) /\
    (true, SetField32 false 1200 8 0) ∈ events /\
    forall ev, ev ∈ events ->
               call_location ev.2 = Some (FieldLocation 1200 8) ->
               ev = (true, SetField32 false 1200 8 0).
Proof.
  exists (set_object_logs
            {[ 1200 := {[ 8 := mkFieldValue 0 k32Bits false ]} ]}
            (initial true 1100)),
         (initial true 1100),
         (emit (set_rolling_back true (initial true 1100))
            (ObjectLog.Undo example_env
               {[ 8 := mkFieldValue 0 k32Bits false ]} 1200)).
  destruct (first_write_wins example_env (initial true 1100)
              (set_object_logs
                 {[ 1200 := {[ 8 := mkFieldValue 0 k32Bits false ]} ]}
                 (initial true 1100))
              (set_object_logs
                 {[ 1200 := {[ 8 := mkFieldValue 0 k32Bits false ]} ]}
                 (initial true 1100))
              (OpWriteField k32Bits 1200 8 0 false)
              [OpWriteField k32Bits 1200 8 42 false;
               OpWriteField kByte 1200 8 1 true]
              (FieldLocation 1200 8)
              (FieldEntry (mkFieldValue 0 k32Bits false)))
    as (_ & He & Hr).
  - reflexivity.
  - reflexivity.
  - vm_compute. reflexivity.
  - vm_compute. reflexivity.
  - split; [vm_compute; reflexivity|]. split; [exact He|].
    split; [vm_compute; reflexivity|].
    destruct (Hr (initial true 1100)
                (emit (set_rolling_back true (initial true 1100))
                   (ObjectLog.Undo example_env
                      {[ 8 := mkFieldValue 0 k32Bits false ]} 1200)))
      as [Hfield _]; [vm_compute; reflexivity|].
    apply (Hfield k32Bits 1200 8 0 false).
    + reflexivity.
    + unfold protected_slot. simpl. intros [|[]]; lia.
    + simpl. unfold Int.is_unsigned. simpl. lia.
Defined.

(** The class slot (offset 0) of the object at 1200 written, and recorded,
    under a transaction: the entry is retained and the rollback makes no
    call. *)
Example first_write_wins_class_slot_example :
  (t ← records example_env [OpWriteField kReference 1200 0 100 false]
                (initial true 1100);
   Rollback example_env t)
  = Some (initial true 1100, []).
Proof. vm_compute. reflexivity. Qed.

(** Two writes of the element 3 of the int array at 2000, which held 7 and
    then 9: the rollback stores 7. *)
Example first_write_wins_array_example :
  (t ← records example_env [OpWriteArray 2000 3 7; OpWriteArray 2000 3 9]
                (initial true 1100);
   Rollback example_env t)
  = Some (initial true 1100, [(true, SetWithoutChecks kPrimInt 2000 3 7)]).
Proof. vm_compute. reflexivity. Qed.

(** A write of the 32-bit field at offset 8 of the object at 1200, which
    held 0: the rollback stores 0. *)
Example first_write_wins_field_example :
  (t ← records example_env [OpWriteField k32Bits 1200 8 0 false]
                (initial true 1100);
   Rollback example_env t)
  = Some (initial true 1100, [(true, SetField32 false 1200 8 0)]).
Proof. vm_compute. reflexivity. Qed.

(** ** Root visiting: the keys of the logs *)

Section Rekey.

Context {A : Type}.
Implicit Types (logs : gmap Z A) (moving : list (Z * Z)).

Lemma rekey_Some logs (old_root new_root : Z) logs' :
  rekey logs (old_root, new_root) = Some logs' <->
  exists log,
    logs !! old_root = Some log /\ logs !! new_root = None /\
    logs' = delete old_root (<[new_root := log]> logs).
Proof.
  unfold rekey. simpl. split.
  - intros H. apply bind_Some in H as (log & Hl & H).
    apply bind_Some in H as ([] & Hc & [= <-]).
    apply CHECK_Some, bool_decide_eq_true in Hc. by exists log.
  - intros (log & Hl & Hn & ->). rewrite Hl. simpl.
    by rewrite bool_decide_eq_true_2.
Qed.


Lemma rekey_lookup logs (old_root new_root : Z) logs' (log : A) :
  logs !! old_root = Some log ->
  rekey logs (old_root, new_root) = Some logs' ->
  logs' !! new_root = Some log /\ logs' !! old_root = None /\
  forall k, k <> old_root -> k <> new_root -> logs' !! k = logs !! k.
Proof.
  intros Hl H. apply rekey_Some in H as (log' & Hl' & Hn & ->).
  assert (new_root <> old_root) by congruence.
  rewrite Hl in Hl'. injection Hl' as <-.
  split; [|split].
  - rewrite lookup_delete_ne by done. apply lookup_insert_eq.
  - apply lookup_delete_eq.
  - intros k Ho Hk. rewrite lookup_delete_ne by done.
    by rewrite lookup_insert_ne.
Qed.

(** A key that is not a moving root keeps its log. *)
Lemma update_moving_roots_frame moving logs logs' (k : Z) :
  update_moving_roots moving logs = Some logs' ->
  k ∉ moving.*1 -> is_Some (logs !! k) -> logs' !! k = logs !! k.
Proof.
  revert logs. induction moving as [|[o n] moving IH]; intros logs H Hk Hs.
  - by injection H as <-.
  - simpl in H. apply bind_Some in H as (logs1 & H1 & H).
    rewrite fmap_cons, not_elem_of_cons in Hk. destruct Hk as [Hko Hk].
    pose proof H1 as H1'. apply rekey_Some in H1' as (log & Hl & Hn & _).
    destruct (rekey_lookup _ _ _ _ _ Hl H1) as (_ & _ & Hother).
    assert (k <> n) by (intros ->; rewrite Hn in Hs; by destruct Hs).
    rewrite <- (Hother k) by done.
    apply IH; [done|done|]. by rewrite Hother.
Qed.

(** The log of a moving root is found at its new address. *)
Lemma update_moving_roots_moved moving logs logs' (old_root new_root : Z) :
  NoDup moving.*1 ->
  (forall p, p ∈ moving -> is_Some (logs !! p.1)) ->
  update_moving_roots moving logs = Some logs' ->
  (old_root, new_root) ∈ moving ->
  logs' !! new_root = logs !! old_root.
Proof.
  revert logs. induction moving as [|[o n] moving IH];
    intros logs Hnd Hkeys H Hin; [by apply elem_of_nil in Hin|].
  simpl in H. apply bind_Some in H as (logs1 & H1 & H).
  rewrite fmap_cons in Hnd. apply NoDup_cons in Hnd as [Ho Hnd].
  pose proof H1 as H1'. apply rekey_Some in H1' as (log & Hl & Hn & _).
  destruct (rekey_lookup _ _ _ _ _ Hl H1) as (Hnew & _ & Hother).
  assert (Hrest : forall p, p ∈ moving -> logs1 !! p.1 = logs !! p.1).
  { intros p Hp. apply Hother.
    - intros Heq. apply Ho.
      apply (list_elem_of_fmap_2 fst) in Hp. by rewrite Heq in Hp.
    - intros Heq. destruct (Hkeys p) as [x Hx]; [by right|]. congruence. }
  apply elem_of_cons in Hin as [[= -> ->]|Hin].
  - rewrite Hl, <- Hnew.
    apply (update_moving_roots_frame moving); [done| |by rewrite Hnew].
    intros Hmem. apply list_elem_of_fmap in Hmem as (p & Hp1 & Hp).
    destruct (Hkeys p) as [x Hx]; [by right|]. congruence.
  - pose proof (Hrest (old_root, new_root) Hin) as Hold. simpl in Hold.
    rewrite <- Hold.
    apply IH; [done| |done|done].
    intros p Hp. rewrite Hrest by done. apply Hkeys. by right.
Qed.

(** A key of the updated collection was a key that did not move, or is the
    new address of a moving root. *)
Lemma update_moving_roots_keys moving logs logs' (k : Z) :
  update_moving_roots moving logs = Some logs' ->
  is_Some (logs' !! k) ->
  (is_Some (logs !! k) /\ k ∉ moving.*1) \/ k ∈ moving.*2.
Proof.
  revert logs. induction moving as [|[o n] moving IH]; intros logs H Hs.
  - injection H as <-. left. split; [done|]. apply not_elem_of_nil.
  - simpl in H. apply bind_Some in H as (logs1 & H1 & H).
    pose proof H1 as H1'. apply rekey_Some in H1' as (log & Hl & Hn & _).
    destruct (rekey_lookup _ _ _ _ _ Hl H1) as (_ & Hold & Hother).
    rewrite !fmap_cons. simpl.
    destruct (IH _ H Hs) as [[Hs1 Hk]|Hk]; [|right; by right].
    destruct (decide (k = n)) as [->|Hkn]; [right; by left|].
    assert (k <> o) by (intros ->; rewrite Hold in Hs1; by destruct Hs1).
    left. rewrite <- Hother by done. split; [done|].
    rewrite not_elem_of_cons. done.
Qed.

Lemma moving_roots_fst (visitor : Z -> Z) logs :
  (moving_roots visitor logs).*1
  = filter (fun k => visitor k <> k) (entries logs).*1.
Proof.
  unfold moving_roots. induction (entries logs) as [|[k x] l IH]; [done|].
  simpl. rewrite fmap_app, IH, filter_cons. simpl.
  case_bool_decide; case_decide; done.
Qed.

Lemma elem_of_moving_roots (visitor : Z -> Z) logs (old_root new_root : Z) :
  (old_root, new_root) ∈ moving_roots visitor logs <->
  is_Some (logs !! old_root) /\ new_root = visitor old_root /\
  new_root <> old_root.
Proof.
  unfold moving_roots. rewrite list_elem_of_In, in_flat_map. split.
  - intros ([k x] & Hin & Hp). apply list_elem_of_In, elem_of_entries in Hin.
    simpl in Hp. case_bool_decide; [done|].
    destruct Hp as [[= <- <-]|[]]. eauto.
  - intros ([x Hx] & -> & Hne). exists (old_root, x). split.
    + by apply list_elem_of_In, elem_of_entries.
    + simpl. rewrite bool_decide_eq_false_2 by done. by left.
Qed.

(** The two loops of [VisitObjectLogs] and of [VisitArrayLogs]: [f] is what
    the first loop does to a log. *)
Lemma update_moving_roots_visited (visitor : Z -> Z) (f : A -> A) logs logs' :
  update_moving_roots (moving_roots visitor logs) (f <$> logs) = Some logs' ->
  (forall old_root log,
     logs !! old_root = Some log ->
     logs' !! visitor old_root = Some (f log)) /\
  (forall k, is_Some (logs' !! k) ->
     exists old_root, is_Some (logs !! old_root) /\ k = visitor old_root).
Proof.
  intros H. split.
  - intros old_root log Hl.
    assert (Hv : (f <$> logs) !! old_root = Some (f log))
      by (by rewrite lookup_fmap, Hl).
    destruct (decide (visitor old_root = old_root)) as [Heq|Hne].
    + rewrite Heq, <- Hv.
      apply (update_moving_roots_frame _ _ _ _ H); [|by rewrite Hv].
      rewrite moving_roots_fst, list_elem_of_filter. tauto.
    + rewrite <- Hv.
      apply (update_moving_roots_moved (moving_roots visitor logs)).
      * rewrite moving_roots_fst. apply NoDup_filter, NoDup_fst_entries.
      * intros [o n] (Ho & _)%elem_of_moving_roots.
        simpl. rewrite lookup_fmap. by apply fmap_is_Some.
      * done.
      * apply elem_of_moving_roots. eauto.
  - intros k Hs.
    destruct (update_moving_roots_keys _ _ _ _ H Hs) as [[Hk Hnm]|Hk].
    + rewrite lookup_fmap, fmap_is_Some in Hk.
      exists k. split; [done|].
      rewrite moving_roots_fst, list_elem_of_filter in Hnm.
      destruct (decide (visitor k = k)) as [|Hne]; [done|].
      exfalso. apply Hnm. split; [done|].
      destruct Hk as [x Hx]. apply list_elem_of_fmap.
      exists (k, x). split; [done|]. by apply elem_of_entries.
    + apply list_elem_of_fmap in Hk as ([o n] & -> & Hin).
      apply elem_of_moving_roots in Hin as (Ho & -> & _). eauto.
Qed.

(** The update returns when the moving roots are keys, once each, and their
    new addresses are pairwise different and are not keys. *)
Lemma update_moving_roots_is_Some moving logs :
  NoDup moving.*1 -> NoDup moving.*2 ->
  (forall p, p ∈ moving -> is_Some (logs !! p.1) /\ logs !! p.2 = None) ->
  is_Some (update_moving_roots moving logs).
Proof.
  revert logs. induction moving as [|[o n] moving IH];
    intros logs Ho Hn Hkeys; [by eexists|].
  rewrite fmap_cons in Ho, Hn.
  apply NoDup_cons in Ho as [Ho1 Ho], Hn as [Hn1 Hn].
  destruct (Hkeys (o, n)) as [[log Hl] Hnone]; [by left|]. simpl in *.
  assert (H1 : rekey logs (o, n)
               = Some (delete o (<[n := log]> logs))).
  { apply rekey_Some. by exists log. }
  rewrite H1. simpl.
  destruct (rekey_lookup _ _ _ _ _ Hl H1) as (_ & _ & Hother).
  apply IH; [done|done|].
  intros p Hp. destruct (Hkeys p) as [Hp1 Hp2]; [by right|].
  assert (p.1 <> o).
  { intros Heq. apply Ho1. rewrite <- Heq. by apply list_elem_of_fmap_2. }
  assert (p.1 <> n) by (intros Heq; rewrite Heq, Hnone in Hp1; by destruct Hp1).
  assert (p.2 <> n).
  { intros Heq. apply Hn1. rewrite <- Heq. by apply list_elem_of_fmap_2. }
  rewrite Hother by done. split; [done|].
  destruct (decide (p.2 = o)) as [->|]; [apply lookup_delete_eq|].
  by rewrite Hother.
Qed.

Lemma moving_roots_snd (visitor : Z -> Z) logs :
  (moving_roots visitor logs).*2 = visitor <$> (moving_roots visitor logs).*1.
Proof.
  unfold moving_roots. induction (entries logs) as [|[k x] l IH]; [done|].
  simpl. rewrite !fmap_app, IH. f_equal. by case_bool_decide.
Qed.

Lemma moving_roots_is_Some (visitor : Z -> Z) (f : A -> A) logs :
  relocation visitor logs ->
  is_Some (update_moving_roots (moving_roots visitor logs) (f <$> logs)).
Proof.
  intros [Hfresh Hinj].
  assert (Hkeys : forall k, k ∈ (moving_roots visitor logs).*1 ->
                            is_Some (logs !! k) /\ visitor k <> k).
  { intros k Hk. apply list_elem_of_fmap in Hk as ([o n] & -> & Hin).
    apply elem_of_moving_roots in Hin as (Ho & -> & Hne). done. }
  apply update_moving_roots_is_Some.
  - rewrite moving_roots_fst. apply NoDup_filter, NoDup_fst_entries.
  - rewrite moving_roots_snd. apply NoDup_fmap_2_strong.
    + intros k1 k2 [H1 _]%Hkeys [H2 _]%Hkeys. by apply Hinj.
    + rewrite moving_roots_fst. apply NoDup_filter, NoDup_fst_entries.
  - intros [o n] (Ho & -> & Hne)%elem_of_moving_roots. simpl.
    rewrite !lookup_fmap. split; [by apply fmap_is_Some|].
    by rewrite Hfresh.
Qed.

End Rekey.

(** X14.  [VisitRoots] returns for such a visitor, when no object array is
    logged. *)
Lemma VisitRoots_is_Some (rt : Env) (visitor : Z -> Z) (t : Transaction) :
  relocation visitor (object_logs_ t) ->
  relocation visitor (array_logs_ t) ->
  (forall array, is_Some (array_logs_ t !! array) ->
                 IsObjectArray rt array = false) ->
  is_Some (VisitRoots rt visitor t).
Proof.
  intros Ho Ha Hnot. unfold VisitRoots, VisitObjectLogs, VisitArrayLogs.
  destruct (moving_roots_is_Some visitor (ObjectLog.VisitRoots visitor) _ Ho)
    as [ol Hol].
  pose proof (moving_roots_is_Some visitor id _ Ha) as [al Hal].
  rewrite map_fmap_id in Hal.
  simpl. rewrite Hol. simpl.
  destruct (mapM _ (entries (array_logs_ t))) eqn:Hm.
  - simpl. rewrite Hal. simpl. by eexists.
  - apply mapM_None in Hm. apply Exists_exists in Hm as ([k x] & Hin & Hc).
    apply elem_of_entries in Hin. simpl in Hc.
    rewrite Hnot in Hc by (by rewrite Hin). done.
Qed.

Lemma VisitRoots_Some (rt : Env) (visitor : Z -> Z) (t t' : Transaction) :
  VisitRoots rt visitor t = Some t' ->
  root_ t' = visitor (root_ t) /\
  update_moving_roots (moving_roots visitor (object_logs_ t))
                      (ObjectLog.VisitRoots visitor <$> object_logs_ t)
  = Some (object_logs_ t') /\
  update_moving_roots (moving_roots visitor (array_logs_ t)) (array_logs_ t)
  = Some (array_logs_ t') /\
  intern_string_logs_ t'
  = map (InternStringLog.VisitRoots visitor) (intern_string_logs_ t) /\
  resolve_string_logs_ t'
  = map (ResolveStringLog.VisitRoots visitor) (resolve_string_logs_ t).
Proof.
  unfold VisitRoots, VisitObjectLogs, VisitArrayLogs. intros H.
  apply bind_Some in H as (t1 & H1 & H).
  apply bind_Some in H1 as (ol & Hol & [= <-]).
  apply bind_Some in H as (t2 & H2 & [= <-]).
  apply bind_Some in H2 as (_ & _ & H2).
  apply bind_Some in H2 as (al & Hal & [= <-]).
  simpl in *. done.
Qed.



(** * Further properties *)

(** ** Constraints on reads *)

(** X1.  [ReadConstraint], called on a class, blocks the read exactly in strict
    mode and when the class is not the root class. *)
Theorem ReadConstraint_rule (rt : Env) (t : Transaction) (obj : Z) :
  (kIsDebugBuild rt = true -> IsClass rt obj = true) ->
  exists blocked : bool,
    ReadConstraint rt t obj = Some blocked /\
    (blocked = true <-> IsStrict t = true /\ obj <> root_ t).
Proof.
  intros Hc. unfold ReadConstraint.
  apply (DCHECK_Some rt _ tt) in Hc as ->. simpl.
  unfold IsStrict. destruct (strict_ t).
  - eexists. split; [done|].
    destruct (Z.eqb_spec obj (root_ t)); simpl; intuition congruence.
  - exists false. intuition congruence.
Qed.

Lemma ReadConstraint_rule_witness :
  exists blocked : bool,
    ReadConstraint example_env (initial true 1100) 100 = Some blocked /\
    (blocked = true <-> IsStrict (initial true 1100) = true /\ 100 <> 1100).
Proof.
  apply (ReadConstraint_rule example_env (initial true 1100) 100).
  reflexivity.
Defined.

(** X2.  A class that may not be read may not be written; outside of the boot
    image a class may be written exactly when it may be read. *)
Theorem ReadConstraint_WriteConstraint (rt : Env) (t : Transaction) (obj : Z) :
  obj <> 0 -> IsClass rt obj = true ->
  (ReadConstraint rt t obj = Some true -> WriteConstraint rt t obj = Some true) /\
  (ObjectIsInBootImageSpace rt obj = false ->
   WriteConstraint rt t obj = ReadConstraint rt t obj).
Proof.
  intros Hobj Hc. unfold ReadConstraint, WriteConstraint.
  assert (DCHECK rt (negb (obj =? 0)) = Some tt) as ->.
  { apply DCHECK_Some. intros _. apply negb_true_iff. lia. }
  rewrite Hc, DCHECK_true. simpl. unfold IsStrict.
  destruct (ObjectIsInBootImageSpace rt obj), (strict_ t); simpl;
    split; congruence.
Qed.

Lemma ReadConstraint_WriteConstraint_witness :
  WriteConstraint example_env (initial true 100) 1100
  = ReadConstraint example_env (initial true 100) 1100.
Proof.
  apply (ReadConstraint_WriteConstraint example_env (initial true 100) 1100);
    [lia | reflexivity | reflexivity].
Defined.

(** ** Abort, rollback and the abort error *)

Lemma Abort_aborted (m : string) (t : Transaction) :
  aborted_ t = true -> Abort m t = t.
Proof. intros H. unfold Abort. by rewrite H. Qed.

Lemma Abort_again (later : list string) (t : Transaction) :
  aborted_ t = true -> foldl (fun t m => Abort m t) t later = t.
Proof.
  revert t. induction later as [|m later IH]; intros t H; simpl; [done|].
  rewrite Abort_aborted by done. by apply IH.
Qed.

(** X3.  After any number of [Abort] calls, [ThrowAbortError] without a message
    throws the message of the first of them; with a message it throws that
    message, whatever the transaction holds; without a message on a
    transaction that is not aborted, a debug build aborts. *)
Theorem ThrowAbortError_first_message
    (rt : Env) (t : Transaction) (first : string) (later : list string)
    (explicit : string) :
  IsAborted t = false ->
  let t' := foldl (fun t m => Abort m t) (Abort first t) later in
  ThrowAbortError rt None t' = Some first /\
  ThrowAbortError rt (Some explicit) t' = Some explicit /\
  ThrowAbortError rt (Some explicit) t = Some explicit /\
  ThrowAbortError rt None t
  = if kIsDebugBuild rt then None else Some (GetAbortMessage t).
Proof.
  intros Hna t'. unfold IsAborted in Hna.
  assert (Ht' : t' = set_aborted true first t).
  { subst t'. unfold Abort at 2. rewrite Hna. simpl. by apply Abort_again. }
  rewrite Ht'. unfold ThrowAbortError, IsAborted, GetAbortMessage. simpl.
  rewrite DCHECK_true, Hna. unfold DCHECK.
  by destruct (kIsDebugBuild rt).
Qed.

Lemma ThrowAbortError_first_message_witness :
  ThrowAbortError example_env None
    (foldl (fun t m => Abort m t) (Abort "first" (initial true 100))
           ["second"])
  = Some "first"%string.
Proof.
  apply (ThrowAbortError_first_message example_env (initial true 100)
           "first" ["second"] "other").
  reflexivity.
Defined.

(** X4.  [Abort] leaves the logs alone: a rollback after it makes the calls it
    would have made before it, and the transaction rolled back is still
    aborted, with its message. *)
Theorem Rollback_after_Abort
    (rt : Env) (t t' : Transaction) (m : string) (events : list Event) :
  IsAborted t = false ->
  Rollback rt (Abort m t) = Some (t', events) ->
  Rollback rt t = Some (rolled_back t, events) /\
  t' = Abort m (rolled_back t) /\
  IsAborted t' = true /\ GetAbortMessage t' = m.
Proof.
  intros Hna H. unfold IsAborted in Hna.
  assert (Ha : Abort m t = set_aborted true m t).
  { unfold Abort. by rewrite Hna. }
  rewrite Ha in H.
  apply Rollback_Some in H as (Hp & Hact & arrays & strings & H1 & H2 & -> & ->).
  simpl in *. split; [|split; [|done]].
  - apply Rollback_Some. split; [done|]. split; [done|].
    by exists arrays, strings.
  - unfold Abort, rolled_back. simpl. by rewrite Hna.
Qed.

Lemma Rollback_after_Abort_witness :
  Rollback example_env example_transaction
  = Some (rolled_back example_transaction,
          [(true, SetField32 false 1200 8 0);
           (true, SetWithoutChecks kPrimInt 2000 3 7);
           (true, InsertStrongFromTransaction 3000);
           (true, RemoveStrongFromTransaction 3000);
           (true, ClearString 4000 5)]).
Proof.
  apply (Rollback_after_Abort example_env example_transaction
           (Abort "failed" (rolled_back example_transaction)) "failed").
  - reflexivity.
  - vm_compute. reflexivity.
Defined.

(** ** The reentrancy guard *)

(** X5.  While a reason is installed, a debug build aborts on every recording
    operation; a build that is not a debug build records as usual. *)
Theorem record_under_guard
    (rt : Env) (op : RecordOp) (t : Transaction) (reason : string) :
  assert_no_new_records_reason_ t = Some reason ->
  (kIsDebugBuild rt = true -> record rt op t = None) /\
  (kIsDebugBuild rt = false -> is_Some (record rt op t)).
Proof.
  intros Hr. split; intros Hd.
  - destruct op as [k obj off v vol|array index v|dc idx|kind sop s]; simpl.
    + rewrite RecordWriteFieldOfKind_eq. unfold RecordWriteField, DCHECK.
      rewrite Hd, Hr. by destruct (negb (obj =? 0)).
    + unfold RecordWriteArray, DCHECK. rewrite Hd, Hr.
      by destruct (negb (array =? 0)), (IsArrayInstance rt array),
        (negb (IsObjectArray rt array)).
    + unfold RecordResolveString, DCHECK. rewrite Hd, Hr.
      by destruct (negb (dc =? 0)), (idx <? NumStringIds rt dc).
    + destruct kind, sop; simpl;
        unfold RecordStrongStringInsertion, RecordWeakStringInsertion,
          RecordStrongStringRemoval, RecordWeakStringRemoval,
          InternStringLog.new, LogInternedString, DCHECK;
        rewrite Hd, Hr; by destruct (negb (s =? 0)).
  - destruct op as [k obj off v vol|array index v|dc idx|kind sop s]; simpl.
    + rewrite RecordWriteFieldOfKind_eq. unfold RecordWriteField, DCHECK.
      rewrite Hd. by eexists.
    + unfold RecordWriteArray, DCHECK. rewrite Hd. by eexists.
    + unfold RecordResolveString, ResolveStringLog.new, DCHECK.
      rewrite Hd. by eexists.
    + destruct kind, sop; simpl;
        unfold RecordStrongStringInsertion, RecordWeakStringInsertion,
          RecordStrongStringRemoval, RecordWeakStringRemoval,
          InternStringLog.new, LogInternedString, DCHECK;
        rewrite Hd; by eexists.
Qed.

Lemma record_under_guard_witness :
  record example_env (OpWriteField k32Bits 1200 8 0 false)
    (set_reason (Some "no records here"%string) (initial true 1100))
  = None.
Proof.
  apply (record_under_guard example_env (OpWriteField k32Bits 1200 8 0 false)
           (set_reason (Some "no records here"%string) (initial true 1100))
           "no records here");
    reflexivity.
Defined.

(** X6.  In a debug build with an active transaction that has no reason
    installed: [InstallAssertion] installs its reason; a second
    [InstallAssertion] aborts, guards do not nest; [RemoveAssertion] gives the
    transaction back as it was before the guard, and aborts when it is given
    another transaction than the current one or when no reason is
    installed. *)
Theorem ScopedAssertNoNewTransactionRecords_scope
    (rt : Env) (t : Transaction) (reason other : string) :
  kIsDebugBuild rt = true -> IsActiveTransaction rt = true ->
  assert_no_new_records_reason_ t = None ->
  exists t1 : Transaction,
    ScopedAssertNoNewTransactionRecords.InstallAssertion rt reason t
    = Some (true, t1) /\
    assert_no_new_records_reason_ t1 = Some reason /\
    ScopedAssertNoNewTransactionRecords.InstallAssertion rt other t1 = None /\
    ScopedAssertNoNewTransactionRecords.RemoveAssertion rt true t1 = Some t /\
    ScopedAssertNoNewTransactionRecords.RemoveAssertion rt false t1 = None /\
    ScopedAssertNoNewTransactionRecords.RemoveAssertion rt true t = None.
Proof.
  intros Hd Ha Hr.
  unfold ScopedAssertNoNewTransactionRecords.InstallAssertion,
    ScopedAssertNoNewTransactionRecords.RemoveAssertion.
  rewrite Hd, Ha, Hr. simpl.
  eexists. split; [done|]. simpl.
  split; [done|]. split; [done|]. split; [|done].
  destruct t. simpl in *. by subst.
Qed.

Lemma ScopedAssertNoNewTransactionRecords_scope_witness :
  exists t1 : Transaction,
    ScopedAssertNoNewTransactionRecords.InstallAssertion example_env_active
      "scope" (initial true 1100) = Some (true, t1) /\
    ScopedAssertNoNewTransactionRecords.RemoveAssertion example_env_active
      true t1 = Some (initial true 1100).
Proof.
  destruct (ScopedAssertNoNewTransactionRecords_scope example_env_active
              (initial true 1100) "scope" "nested")
    as (t1 & Hi & _ & _ & Hr & _); [reflexivity..|].
  exists t1. split; [exact Hi | exact Hr].
Defined.

(** ** When a rollback returns *)

Lemma entries_nil {A : Type} (m : gmap Z A) : entries m = [] <-> m = ∅.
Proof.
  split; [|intros ->; apply entries_empty].
  intros H. apply map_empty. intros k.
  destruct (m !! k) as [x|] eqn:Hk; [|done].
  apply elem_of_entries in Hk. rewrite H in Hk. by apply elem_of_nil in Hk.
Qed.

Lemma Forall_const {A : Type} (Q : Prop) (l : list A) :
  Forall (fun _ => Q) l <-> (l <> [] -> Q).
Proof.
  destruct l as [|x l]; [by split|]. split.
  - by intros [H _]%Forall_cons.
  - intros H. apply Forall_forall. intros _ _. by apply H.
Qed.

Lemma UndoArrayWrite_is_Some (array index raw : Z) (type : PrimitiveType) :
  is_Some (ArrayLog.UndoArrayWrite array type index raw) <->
  is_primitive type = true.
Proof.
  destruct type; simpl; split; try done; intros H;
    try (by eexists); by destruct H.
Qed.

Lemma ArrayLog_Undo_is_Some (rt : Env) (log : ArrayLog.t) (array : Z) :
  is_Some (ArrayLog.Undo rt log array) <->
  (kIsDebugBuild rt = true -> array <> 0 /\ IsArrayInstance rt array = true) /\
  (log <> ∅ -> is_primitive (ComponentPrimitiveType rt array) = true).
Proof.
  unfold ArrayLog.Undo.
  assert (Hm : is_Some (mapM (fun it : Z * Z =>
                  ArrayLog.UndoArrayWrite array
                    (ComponentPrimitiveType rt array) it.1 it.2)
                  (entries log)) <->
               (log <> ∅ ->
                is_primitive (ComponentPrimitiveType rt array) = true)).
  { rewrite mapM_is_Some, <- entries_nil, <- Forall_const.
    apply Forall_iff. intros [i raw]. simpl.
    apply UndoArrayWrite_is_Some. }
  rewrite <- Hm. unfold DCHECK. destruct (kIsDebugBuild rt); simpl.
  - destruct (Z.eqb_spec array 0) as [->|Hne]; simpl.
    + split; [by intros []|]. intros [H _]. by destruct H.
    + destruct (IsArrayInstance rt array); simpl.
      * tauto.
      * split; [by intros []|]. intros [H _]. by destruct H.
  - intuition congruence.
Qed.

Lemma array_undo_calls_is_Some (rt : Env) (logs : gmap Z ArrayLog.t) :
  is_Some (array_undo_calls rt logs) <->
  forall array log,
    logs !! array = Some log ->
    (kIsDebugBuild rt = true ->
     array <> 0 /\ IsArrayInstance rt array = true) /\
    (log <> ∅ -> is_primitive (ComponentPrimitiveType rt array) = true).
Proof.
  unfold array_undo_calls.
  set (f := fun it : Z * ArrayLog.t => ArrayLog.Undo rt it.2 it.1).
  assert (Hf : is_Some (mapM f (entries logs)) <->
               is_Some (mapM f (entries logs) ≫=
                        fun calls => Some (concat calls))).
  { destruct (mapM f (entries logs)) as [calls|]; simpl.
    - split; intros _; by eexists.
    - done. }
  rewrite <- Hf, mapM_is_Some, Forall_forall. split.
  - intros H array log Hl. apply ArrayLog_Undo_is_Some.
    by apply (H (array, log)), elem_of_entries.
  - intros H [array log] Hin%elem_of_entries.
    by apply ArrayLog_Undo_is_Some, H.
Qed.

Lemma InternStringLog_Undo_is_Some (rt : Env) (log : InternStringLog.t) :
  is_Some (InternStringLog.Undo rt log) <->
  (kIsDebugBuild rt = true -> GetInternTable rt <> 0).
Proof.
  unfold InternStringLog.Undo.
  assert (Hm : is_Some
                 match InternStringLog.string_op_ log with
                 | kInsert =>
                     match InternStringLog.string_kind_ log with
                     | kStrongString =>
                         Some (RemoveStrongFromTransaction
                                 (InternStringLog.str_ log))
                     | kWeakString =>
                         Some (RemoveWeakFromTransaction
                                 (InternStringLog.str_ log))
                     end
                 | kRemove =>
                     match InternStringLog.string_kind_ log with
                     | kStrongString =>
                         Some (InsertStrongFromTransaction
                                 (InternStringLog.str_ log))
                     | kWeakString =>
                         Some (InsertWeakFromTransaction
                                 (InternStringLog.str_ log))
                     end
                 end).
  { destruct (InternStringLog.string_op_ log),
      (InternStringLog.string_kind_ log); by eexists. }
  unfold DCHECK. destruct (kIsDebugBuild rt); simpl.
  - destruct (Z.eqb_spec (GetInternTable rt) 0) as [Heq|Hne]; simpl.
    + split; [by intros []|]. intros H. by destruct H.
    + split; [done|by intros _].
  - split; [done|by intros _].
Qed.

Lemma intern_undo_calls_is_Some (rt : Env) (logs : list InternStringLog.t) :
  is_Some (intern_undo_calls rt logs) <->
  (logs <> [] -> kIsDebugBuild rt = true -> GetInternTable rt <> 0).
Proof.
  unfold intern_undo_calls. rewrite mapM_is_Some, <- Forall_const.
  apply Forall_iff. intros log. apply InternStringLog_Undo_is_Some.
Qed.

(** X7.  Provided the pointers it dereferences are valid, [Rollback] returns
    exactly when no exception is pending, the transaction is not the active
    one, and every array with logged elements has a primitive component
    type.  Otherwise it aborts. *)
Theorem Rollback_returns (rt : Env) (t : Transaction) :
  rollback_receivers rt t ->
  (is_Some (Rollback rt t) <->
   IsExceptionPending rt = false /\
   IsActiveTransaction rt = false /\
   (forall array log,
      array_logs_ t !! array = Some log -> log <> ∅ ->
      is_primitive (ComponentPrimitiveType rt array) = true)).
Proof.
  intros (_ & Harr & _ & Htbl).
  assert (Ha : is_Some (array_undo_calls rt (array_logs_ t)) <->
               forall array log,
                 array_logs_ t !! array = Some log -> log <> ∅ ->
                 is_primitive (ComponentPrimitiveType rt array) = true).
  { rewrite array_undo_calls_is_Some. split.
    - intros H array log Hl. by apply (H array log).
    - intros H array log Hl. split; [|by apply H].
      intros _. apply Harr. by exists log. }
  assert (Hs : is_Some (intern_undo_calls rt (intern_string_logs_ t))).
  { apply intern_undo_calls_is_Some. intros Hne _. by apply Htbl. }
  rewrite <- Ha. split.
  - intros [[t' events] H].
    apply Rollback_Some in H as (Hp & Hact & arrays & strings & H1 & _).
    rewrite H1. split; [done|]. split; [done|]. by eexists.
  - intros (Hp & Hact & [arrays H1]). destruct Hs as [strings H2].
    exists (rolled_back t,
            map (pair true)
              (object_undo_calls rt (object_logs_ t) ++ arrays ++ strings ++
               resolve_undo_calls (resolve_string_logs_ t))).
    apply Rollback_Some.
    split; [done|]. split; [done|]. by exists arrays, strings.
Qed.

(** X8.  A transaction that was rolled back has nothing left to undo: rolling it
    back again makes no call and leaves it as it is. *)
Theorem Rollback_twice
    (rt : Env) (t t' : Transaction) (events : list Event) :
  Rollback rt t = Some (t', events) ->
  Rollback rt t' = Some (t', []).
Proof.
  intros H.
  apply Rollback_Some in H as (Hp & Hact & _ & _ & _ & _ & _ & ->).
  apply Rollback_Some. split; [done|]. split; [done|].
  exists [], []. simpl.
  unfold array_undo_calls, intern_undo_calls, object_undo_calls. simpl.
  rewrite !entries_empty. done.
Qed.

Lemma Rollback_twice_witness :
  Rollback example_env (rolled_back example_transaction)
  = Some (rolled_back example_transaction, []).
Proof.
  apply (Rollback_twice example_env example_transaction
           (rolled_back example_transaction)
           [(true, SetField32 false 1200 8 0);
            (true, SetWithoutChecks kPrimInt 2000 3 7);
            (true, InsertStrongFromTransaction 3000);
            (true, RemoveStrongFromTransaction 3000);
            (true, ClearString 4000 5)]).
  vm_compute. reflexivity.
Defined.

(** ** The string logs of a sequence of recordings *)

Lemma record_string_logs (rt : Env) (op : RecordOp) (t t' : Transaction) :
  record rt op t = Some t' ->
  resolve_string_logs_ t' = resolve_string_logs_ t ++ resolve_slots [op] /\
  intern_string_logs_ t' = string_entries [op] ++ intern_string_logs_ t.
Proof.
  intros H. destruct op as [k obj off v vol|array index v|dc idx|kind sop s];
    simpl in H.
  - rewrite RecordWriteFieldOfKind_eq in H.
    apply RecordWriteField_Some in H as ->. simpl. by rewrite app_nil_r.
  - apply RecordWriteArray_Some in H as ->. simpl. by rewrite app_nil_r.
  - by apply RecordResolveString_Some in H as ->.
  - apply RecordString_Some in H as ->. simpl. by rewrite app_nil_r.
Qed.

Lemma records_string_logs (rt : Env) (ops : list RecordOp)
    (t t' : Transaction) :
  records rt ops t = Some t' ->
  resolve_string_logs_ t' = resolve_string_logs_ t ++ resolve_slots ops /\
  intern_string_logs_ t' = rev (string_entries ops) ++ intern_string_logs_ t.
Proof.
  revert t. induction ops as [|op ops IH]; intros t H; simpl in H.
  - injection H as <-. simpl. by rewrite app_nil_r.
  - apply bind_Some in H as (t1 & H1 & H).
    apply record_string_logs in H1 as [Hr Hs].
    apply IH in H as [Hr' Hs']. rewrite Hr', Hs', Hr, Hs.
    change (op :: ops) with ([op] ++ ops).
    unfold resolve_slots, string_entries. rewrite !omap_app, rev_app_distr.
    rewrite <- !app_assoc. by destruct op.
Qed.

Lemma Rollback_dex_cache_calls (rt : Env) (t t' : Transaction)
    (events : list Event) :
  Rollback rt t = Some (t', events) ->
  filter (fun c => is_dex_cache_call c = true) events.*2
  = map ResolveStringLog.Undo (resolve_string_logs_ t).
Proof.
  intros H.
  apply Rollback_Some in H as (_ & _ & arrays & strings & Ha' & Hs & -> & _).
  pose proof (object_undo_calls_kind rt (object_logs_ t)) as Ho.
  pose proof (array_undo_calls_kind _ _ _ Ha') as Ha.
  pose proof (intern_undo_calls_kind _ _ _ Hs) as Hi.
  pose proof (resolve_undo_calls_kind (resolve_string_logs_ t)) as Hr.
  set (objects := object_undo_calls rt (object_logs_ t)) in *.
  unfold resolve_undo_calls in *.
  set (resolves := map ResolveStringLog.Undo (resolve_string_logs_ t)) in *.
  rewrite <- list_fmap_compose. unfold compose. simpl. rewrite list_fmap_id.
  rewrite !filter_app.
  rewrite (filter_none _ objects), (filter_none _ arrays),
    (filter_none _ strings), (filter_all _ resolves); first done.
  - done.
  - eapply Forall_impl; [exact Hi|]. intros c Hc. by destruct c.
  - eapply Forall_impl; [exact Ha|]. intros c Hc. by destruct c.
  - eapply Forall_impl; [exact Ho|]. intros c Hc. by destruct c.
Qed.

(** X9.  The dex cache calls of a rollback clear the slots of the resolve string
    entries, one call for each entry and in the order the entries were
    recorded, the entries the transaction already had first; no other slot
    of a dex cache is cleared. *)
Theorem Rollback_clears_resolved_strings
    (rt : Env) (ops : list RecordOp) (t t1 t2 : Transaction)
    (events : list Event) :
  records rt ops t = Some t1 ->
  Rollback rt t1 = Some (t2, events) ->
  filter (fun c => is_dex_cache_call c = true) events.*2
  = map (fun log => ClearString (ResolveStringLog.dex_cache_ log)
                                (ResolveStringLog.string_idx_ log))
        (resolve_string_logs_ t ++ resolve_slots ops).
Proof.
  intros H1 H2. apply records_string_logs in H1 as [H1 _].
  apply Rollback_dex_cache_calls in H2. by rewrite H2, H1.
Qed.

Lemma Rollback_clears_resolved_strings_witness :
  filter (fun c => is_dex_cache_call c = true)
    [(true, SetField32 false 1200 8 0);
     (true, ClearString 4000 5); (true, ClearString 4000 2)].*2
  = map (fun log => ClearString (ResolveStringLog.dex_cache_ log)
                                (ResolveStringLog.string_idx_ log))
        (resolve_string_logs_ (initial true 1100) ++
         resolve_slots [OpResolveString 4000 5;
                        OpWriteField k32Bits 1200 8 0 false;
                        OpResolveString 4000 2]).
Proof.
  apply (Rollback_clears_resolved_strings example_env
           [OpResolveString 4000 5; OpWriteField k32Bits 1200 8 0 false;
            OpResolveString 4000 2]
           (initial true 1100)
           (mkTransaction false false true 1100 EmptyString None
              {[ 1200 := {[ 8 := mkFieldValue 0 k32Bits false ]} ]} ∅ []
              [ResolveStringLog.mk 4000 5; ResolveStringLog.mk 4000 2])
           (initial true 1100)).
  - vm_compute. reflexivity.
  - vm_compute. reflexivity.
Defined.

(** ** The intern table after a rollback *)

Lemma string_op_forward_undo (rt : Env) (tbl tbl' : InternTable)
    (log : InternStringLog.t) (c : Call) :
  string_op_forward tbl log = Some tbl' ->
  InternStringLog.Undo rt log = Some c ->
  intern_table_call tbl' c = tbl.
Proof.
  unfold string_op_forward, InternStringLog.Undo. intros Hf Hu.
  apply bind_Some in Hu as (_ & _ & Hu).
  destruct tbl as [strong weak], log as [s [] []]; simpl in *;
    case_decide as Hin; try done;
    injection Hf as <-; injection Hu as <-; simpl; f_equal;
    apply set_eq; intros x;
    rewrite ?elem_of_difference, ?elem_of_union, ?elem_of_difference,
      ?elem_of_singleton;
    destruct (decide (x = s)) as [->|]; tauto.
Qed.

Lemma string_ops_forward_undo (rt : Env) (logs : list InternStringLog.t)
    (tbl tbl' : InternTable) (calls : list Call) :
  string_ops_forward tbl logs = Some tbl' ->
  mapM (InternStringLog.Undo rt) (rev logs) = Some calls ->
  intern_table_calls tbl' calls = tbl.
Proof.
  revert tbl calls. induction logs as [|log logs IH]; intros tbl calls Hf Hu.
  - injection Hf as <-. by injection Hu as <-.
  - simpl in Hf. apply bind_Some in Hf as (tbl1 & H1 & Hf).
    simpl in Hu. apply mapM_Some in Hu.
    apply Forall2_app_inv_l in Hu as (calls1 & calls2 & Hu1 & Hu2 & ->).
    apply Forall2_cons_inv_l in Hu2 as (c & rest & Hc & Hnil & ->).
    apply Forall2_nil_inv_l in Hnil as ->.
    apply mapM_Some in Hu1.
    unfold intern_table_calls in *. rewrite foldl_app. simpl.
    rewrite (IH _ _ Hf Hu1). by eapply string_op_forward_undo.
Qed.

(** X10.  The intern table calls of a rollback take the intern table back to
    where it was when the transaction had no entry: each entry is the record
    of an insertion of a string the table did not hold or of a removal of one
    it held, and the calls undo them from the last to the first. *)
Theorem Rollback_restores_intern_table
    (rt : Env) (ops : list RecordOp) (t t1 t2 : Transaction)
    (events : list Event) (tbl tbl1 : InternTable) :
  intern_string_logs_ t = [] ->
  records rt ops t = Some t1 ->
  string_ops_forward tbl (string_entries ops) = Some tbl1 ->
  Rollback rt t1 = Some (t2, events) ->
  intern_table_calls tbl1
    (filter (fun c => is_intern_call c = true) events.*2) = tbl.
Proof.
  intros Hnil Hrec Hf Hr.
  apply records_string_logs in Hrec as [_ Hlogs].
  rewrite Hnil, app_nil_r in Hlogs.
  apply Rollback_intern_calls in Hr. rewrite Hlogs in Hr.
  by apply (string_ops_forward_undo rt _ _ _ _ Hf).
Qed.

Lemma Rollback_restores_intern_table_witness :
  intern_table_calls (mkInternTable {[3001]} ∅)
    (filter (fun c => is_intern_call c = true)
       [(true, InsertWeakFromTransaction 3002);
        (true, RemoveStrongFromTransaction 3001)].*2)
  = mkInternTable ∅ {[3002]}.
Proof.
  apply (Rollback_restores_intern_table example_env
           [OpString kStrongString kInsert 3001;
            OpString kWeakString kRemove 3002]
           (initial true 1100)
           (set_intern_string_logs
              [InternStringLog.mk 3002 kWeakString kRemove;
               InternStringLog.mk 3001 kStrongString kInsert]
              (initial true 1100))
           (initial true 1100)).
  - reflexivity.
  - vm_compute. reflexivity.
  - vm_compute. reflexivity.
  - vm_compute. reflexivity.
Defined.

(** ** What recording keeps true *)

Lemma DCHECK_inv (rt : Env) (b : bool) (u : unit) :
  DCHECK rt b = Some u -> kIsDebugBuild rt = true -> b = true.
Proof. intros H. by apply (proj1 (DCHECK_Some rt b u)). Qed.

Lemma ObjectLog_LogValue_nonempty (k : FieldValueKind) (offset v : Z)
    (vol : bool) (log : ObjectLog.t) :
  ObjectLog.LogValue k offset v vol log <> ∅.
Proof.
  intros H. assert (Hl : ObjectLog.LogValue k offset v vol log !! offset = None)
    by (by rewrite H, lookup_empty).
  destruct (log !! offset) as [fv|] eqn:Ho.
  - by rewrite (ObjectLog_LogValue_keeps _ _ _ _ _ _ _ Ho) in Hl.
  - by rewrite (ObjectLog_LogValue_first _ _ _ _ _ Ho) in Hl.
Qed.

Lemma ArrayLog_LogValue_nonempty (index v : Z) (log : ArrayLog.t) :
  ArrayLog.LogValue index v log <> ∅.
Proof.
  intros H. assert (Hl : ArrayLog.LogValue index v log !! index = None)
    by (by rewrite H, lookup_empty).
  destruct (log !! index) as [raw|] eqn:Ho.
  - by rewrite (ArrayLog_LogValue_keeps _ _ _ _ _ Ho) in Hl.
  - by rewrite (ArrayLog_LogValue_first _ _ _ Ho) in Hl.
Qed.

Lemma record_well_recorded (rt : Env) (op : RecordOp) (t t' : Transaction) :
  well_recorded rt t -> record rt op t = Some t' -> well_recorded rt t'.
Proof.
  intros (Hobj & Harr & Hdbg) H.
  destruct op as [k obj off v vol|array index v|dc idx|kind sop s];
    simpl in H.
  - rewrite RecordWriteFieldOfKind_eq in H.
    pose proof H as H'. unfold RecordWriteField in H'.
    apply bind_Some in H' as ([] & Hc & _).
    pose proof (DCHECK_inv _ _ _ Hc) as Hnull.
    apply RecordWriteField_Some in H as ->. unfold well_recorded. simpl.
    split; [|split; [done|]].
    + intros obj' log. destruct (decide (obj = obj')) as [<-|Hne].
      * rewrite lookup_insert_eq. intros [= <-].
        apply ObjectLog_LogValue_nonempty.
      * rewrite lookup_insert_ne by done. apply Hobj.
    + intros Hd. destruct (Hdbg Hd) as (Hk & Hrest). split; [|done].
      intros obj'. destruct (decide (obj = obj')) as [<-|Hne].
      * intros _. pose proof (Hnull Hd) as Hn.
        apply negb_true_iff in Hn. lia.
      * rewrite lookup_insert_ne by done. apply Hk.
  - pose proof H as H'. unfold RecordWriteArray in H'.
    apply bind_Some in H' as ([] & Hc1 & H').
    apply bind_Some in H' as ([] & Hc2 & H').
    apply bind_Some in H' as ([] & Hc3 & _).
    pose proof (DCHECK_inv _ _ _ Hc1) as Hnull.
    pose proof (DCHECK_inv _ _ _ Hc2) as Hinst.
    pose proof (DCHECK_inv _ _ _ Hc3) as Hprim.
    apply RecordWriteArray_Some in H as ->. unfold well_recorded. simpl.
    split; [done|]. split.
    + intros array' log. destruct (decide (array = array')) as [<-|Hne].
      * rewrite lookup_insert_eq. intros [= <-].
        apply ArrayLog_LogValue_nonempty.
      * rewrite lookup_insert_ne by done. apply Harr.
    + intros Hd. destruct (Hdbg Hd) as (Hk & Ha & Hrest).
      split; [done|]. split; [|done].
      intros array'. destruct (decide (array = array')) as [<-|Hne].
      * intros _. pose proof (Hnull Hd) as Hn.
        pose proof (Hprim Hd) as Hp.
        apply negb_true_iff in Hn, Hp.
        split; [lia|]. split; [by apply Hinst|done].
      * rewrite lookup_insert_ne by done. apply Ha.
  - pose proof H as H'. unfold RecordResolveString in H'.
    apply bind_Some in H' as ([] & Hc1 & H').
    apply bind_Some in H' as ([] & Hc2 & _).
    pose proof (DCHECK_inv _ _ _ Hc1) as Hnull.
    pose proof (DCHECK_inv _ _ _ Hc2) as Hidx.
    apply RecordResolveString_Some in H as ->. unfold well_recorded. simpl.
    split; [done|]. split; [done|].
    intros Hd. destruct (Hdbg Hd) as (Hk & Ha & Hs & Hr).
    split; [done|]. split; [done|]. split; [done|].
    apply Forall_app. split; [done|]. apply Forall_singleton. simpl.
    pose proof (Hnull Hd) as Hn. pose proof (Hidx Hd) as Hi.
    apply negb_true_iff in Hn. lia.
  - assert (Hnull : kIsDebugBuild rt = true -> s <> 0).
    { intros Hd.
      destruct kind, sop; simpl in H;
        apply bind_Some in H as (log & Hnew & _);
        apply bind_Some in Hnew as ([] & Hc & _);
        pose proof (DCHECK_inv _ _ _ Hc Hd) as Hn;
        apply negb_true_iff in Hn; lia. }
    apply RecordString_Some in H as ->. unfold well_recorded. simpl.
    split; [done|]. split; [done|].
    intros Hd. destruct (Hdbg Hd) as (Hk & Ha & Hs & Hr).
    split; [done|]. split; [done|]. split; [|done].
    apply Forall_cons. split; [|done]. simpl. by apply Hnull.
Qed.

Lemma record_flags (rt : Env) (op : RecordOp) (t t' : Transaction) :
  record rt op t = Some t' ->
  aborted_ t' = aborted_ t /\ abort_message_ t' = abort_message_ t /\
  rolling_back_ t' = rolling_back_ t /\ strict_ t' = strict_ t /\
  root_ t' = root_ t /\
  assert_no_new_records_reason_ t' = assert_no_new_records_reason_ t.
Proof.
  intros H. destruct op as [k obj off v vol|array index v|dc idx|kind sop s];
    simpl in H.
  - rewrite RecordWriteFieldOfKind_eq in H.
    by apply RecordWriteField_Some in H as ->.
  - by apply RecordWriteArray_Some in H as ->.
  - by apply RecordResolveString_Some in H as ->.
  - by apply RecordString_Some in H as ->.
Qed.

(** X11.  Whatever is recorded, no log of the transaction is empty and, in a
    debug build, every logged object is non-null, every logged array is a
    non-null array instance that is not an object array, every interned
    string logged is non-null and every resolve string entry names a
    non-null dex cache and an index below its number of strings.  The flags,
    the abort message, the root and the reason of the guard are never
    touched by a recording. *)
Theorem records_well_recorded
    (rt : Env) (ops : list RecordOp) (t t' : Transaction) :
  well_recorded rt t -> records rt ops t = Some t' ->
  well_recorded rt t' /\
  aborted_ t' = aborted_ t /\ abort_message_ t' = abort_message_ t /\
  rolling_back_ t' = rolling_back_ t /\ strict_ t' = strict_ t /\
  root_ t' = root_ t /\
  assert_no_new_records_reason_ t' = assert_no_new_records_reason_ t.
Proof.
  revert t. induction ops as [|op ops IH]; intros t Hw H; simpl in H.
  - by injection H as <-.
  - apply bind_Some in H as (t1 & H1 & H).
    pose proof (record_well_recorded _ _ _ _ Hw H1) as Hw1.
    destruct (record_flags _ _ _ _ H1) as (E1 & E2 & E3 & E4 & E5 & E6).
    destruct (IH _ Hw1 H) as (Hw' & F1 & F2 & F3 & F4 & F5 & F6).
    split; [done|]. rewrite F1, F2, F3, F4, F5, F6. done.
Qed.

Lemma initial_well_recorded (rt : Env) (strict : bool) (root : Z) :
  well_recorded rt (initial strict root).
Proof.
  split; [|split]; simpl.
  - intros obj log. by rewrite lookup_empty.
  - intros array log. by rewrite lookup_empty.
  - intros _. split; [|split; [|done]].
    + intros obj. rewrite lookup_empty. by intros [].
    + intros array. rewrite lookup_empty. by intros [].
Qed.

Lemma records_well_recorded_witness :
  well_recorded example_env
    (mkTransaction false false true 1100 EmptyString None
       {[ 1200 := {[ 8 := mkFieldValue 0 k32Bits false ]} ]}
       {[ 2000 := {[ 3 := 7 ]} ]} [] []).
Proof.
  apply (records_well_recorded example_env
           [OpWriteField k32Bits 1200 8 0 false; OpWriteArray 2000 3 7;
            OpWriteArray 2000 3 9]
           (initial true 1100)).
  - apply initial_well_recorded.
  - vm_compute. reflexivity.
Defined.

(** ** Root visiting: the entries of the logs *)

Lemma VisitFieldValue_visited (visitor : Z -> Z) (fv : FieldValue) :
  ObjectLog.VisitFieldValue visitor fv
  = mkFieldValue (visited_value visitor fv) (kind fv) (is_volatile fv).
Proof.
  unfold ObjectLog.VisitFieldValue, visited_value.
  destruct fv as [v [] vol]; simpl; try done.
  by destruct (Z.eqb_spec v 0) as [->|].
Qed.

Lemma VisitRoots_entry_at (rt : Env) (visitor : Z -> Z) (t t' : Transaction) :
  VisitRoots rt visitor t = Some t' ->
  (forall obj offset fv,
     entry_at t (FieldLocation obj offset) = Some (FieldEntry fv) ->
     entry_at t' (FieldLocation (visitor obj) offset)
     = Some (FieldEntry (mkFieldValue (visited_value visitor fv) (kind fv)
                                      (is_volatile fv)))) /\
  (forall array index raw,
     entry_at t (ElementLocation array index) = Some (ElementEntry raw) ->
     entry_at t' (ElementLocation (visitor array) index)
     = Some (ElementEntry raw)).
Proof.
  intros H. apply VisitRoots_Some in H as (Hroot & Ho & Ha & Hs & Hr).
  apply update_moving_roots_visited in Ho as [Ho _].
  rewrite <- (map_fmap_id (array_logs_ t)) in Ha at 2.
  apply update_moving_roots_visited in Ha as [Ha _].
  split.
  - intros obj offset fv He.
    apply entry_at_field in He as (log & fv' & Hl & Hf & [= <-]).
    apply entry_at_field. exists (ObjectLog.VisitRoots visitor log).
    eexists. split; [by apply Ho|]. split; [|done].
    unfold ObjectLog.VisitRoots. rewrite lookup_fmap, Hf. simpl.
    by rewrite VisitFieldValue_visited.
  - intros array index raw He.
    apply entry_at_element in He as (log & raw' & Hl & Hf & [= <-]).
    apply entry_at_element. exists log, raw.
    split; [by apply (Ha array log)|done].
Qed.

(** X12.  When [VisitRoots] returns, the root class is where the visitor says;
    every field entry is found under the new address of its object, at the
    same offset, with its kind and volatility, and with its value unchanged
    unless it is a non-null reference, which is replaced by what the visitor
    says; every array entry is found under the new address of its array with
    its raw value untouched; the intern string and resolve string entries
    keep their order, table, operation and index, their string or dex cache
    being where the visitor says. *)
Theorem VisitRoots_entries
    (rt : Env) (visitor : Z -> Z) (t t' : Transaction) :
  VisitRoots rt visitor t = Some t' ->
  root_ t' = visitor (root_ t) /\
  (forall obj offset fv,
     entry_at t (FieldLocation obj offset) = Some (FieldEntry fv) ->
     entry_at t' (FieldLocation (visitor obj) offset)
     = Some (FieldEntry (mkFieldValue (visited_value visitor fv) (kind fv)
                                      (is_volatile fv)))) /\
  (forall array index raw,
     entry_at t (ElementLocation array index) = Some (ElementEntry raw) ->
     entry_at t' (ElementLocation (visitor array) index)
     = Some (ElementEntry raw)) /\
  intern_string_logs_ t'
  = map (fun log => InternStringLog.mk (visitor (InternStringLog.str_ log))
                      (InternStringLog.string_kind_ log)
                      (InternStringLog.string_op_ log))
        (intern_string_logs_ t) /\
  resolve_string_logs_ t'
  = map (fun log => ResolveStringLog.mk
                      (visitor (ResolveStringLog.dex_cache_ log))
                      (ResolveStringLog.string_idx_ log))
        (resolve_string_logs_ t).
Proof.
  intros H. destruct (VisitRoots_entry_at _ _ _ _ H) as [Hf He].
  apply VisitRoots_Some in H as (Hroot & _ & _ & Hs & Hr).
  done.
Qed.

Lemma VisitRoots_entries_witness :
  entry_at moved_transaction (FieldLocation (moving_visitor 1200) 8)
  = Some (FieldEntry (mkFieldValue 1200 kReference false)).
Proof.
  destruct (VisitRoots_entries example_env moving_visitor moving_transaction
              moved_transaction) as (_ & Hf & _).
  - vm_compute. reflexivity.
  - apply (Hf 1200 8 (mkFieldValue 1300 kReference false)).
    vm_compute. reflexivity.
Defined.

Lemma moving_roots_nil {A : Type} (visitor : Z -> Z) (logs : gmap Z A) :
  (forall k, visitor k = k) -> moving_roots visitor logs = [].
Proof.
  intros H. unfold moving_roots.
  induction (entries logs) as [|[k x] l IH]; [done|].
  simpl. by rewrite bool_decide_eq_true_2, IH.
Qed.

Lemma object_logs_visit_id (logs : gmap Z ObjectLog.t) :
  ObjectLog.VisitRoots (fun root => root) <$> logs = logs.
Proof.
  apply map_eq. intros obj. rewrite lookup_fmap.
  destruct (logs !! obj) as [log|]; [|done]. simpl. f_equal.
  apply map_eq. intros off. unfold ObjectLog.VisitRoots.
  rewrite lookup_fmap.
  destruct (log !! off) as [[v [] vol]|]; try done. simpl.
  unfold ObjectLog.VisitFieldValue. simpl.
  by destruct (Z.eqb_spec v 0) as [->|].
Qed.

Lemma intern_string_logs_visit_id (logs : list InternStringLog.t) :
  map (InternStringLog.VisitRoots (fun root => root)) logs = logs.
Proof. rewrite <- (map_id logs) at 2. apply map_ext. by intros []. Qed.

Lemma resolve_string_logs_visit_id (logs : list ResolveStringLog.t) :
  map (ResolveStringLog.VisitRoots (fun root => root)) logs = logs.
Proof. rewrite <- (map_id logs) at 2. apply map_ext. by intros []. Qed.

(** X13.  A logged array that is an object array makes [VisitRoots] abort; and
    when none is, a visit that moves nothing leaves the transaction exactly
    as it is. *)
Theorem VisitRoots_nothing_moves (rt : Env) (t : Transaction) :
  (forall visitor array,
     is_Some (array_logs_ t !! array) -> IsObjectArray rt array = true ->
     VisitRoots rt visitor t = None) /\
  ((forall array, is_Some (array_logs_ t !! array) ->
                  IsObjectArray rt array = false) ->
   VisitRoots rt (fun root => root) t = Some t).
Proof.
  split.
  - intros visitor array [log Hl] Hobj.
    unfold VisitRoots, VisitArrayLogs.
    destruct (VisitObjectLogs visitor _) as [t1|] eqn:H1; [|done]. simpl.
    assert (Hk : array_logs_ t1 = array_logs_ t).
    { unfold VisitObjectLogs in H1.
      by apply bind_Some in H1 as (ol & _ & [= <-]). }
    rewrite Hk.
    destruct (mapM _ (entries (array_logs_ t))) eqn:Hm; [|done].
    apply mapM_Some in Hm. apply elem_of_entries in Hl.
    apply list_elem_of_lookup in Hl as [n Hn].
    destruct (Forall2_lookup_l _ _ _ _ _ Hm Hn) as (u & _ & Hc).
    simpl in Hc. by rewrite Hobj in Hc.
  - intros Hnot. unfold VisitRoots, VisitObjectLogs, VisitArrayLogs. simpl.
    rewrite !moving_roots_nil by done. simpl.
    destruct (mapM _ (entries (array_logs_ t))) eqn:Hm.
    + simpl. rewrite object_logs_visit_id, moving_roots_nil by done. simpl.
      unfold VisitResolveStringLogs, VisitInternStringLogs. simpl.
      rewrite intern_string_logs_visit_id, resolve_string_logs_visit_id.
      by destruct t.
    + apply mapM_None in Hm. apply Exists_exists in Hm as ([k x] & Hin & Hc).
      apply elem_of_entries in Hin. simpl in Hc.
      rewrite Hnot in Hc by (by rewrite Hin). done.
Qed.

Lemma VisitRoots_nothing_moves_witness :
  VisitRoots example_env (fun root => root) example_transaction
  = Some example_transaction.
Proof.
  apply (VisitRoots_nothing_moves example_env example_transaction).
  intros array _. reflexivity.
Defined.

(** ** The heap after a rollback *)










(** An int array written at its first element both as an array and as an
    object, at offset 12: the two locations share a cell, and the rollback
    leaves in it the value of the first write, not the value it held
    before. *)
Example Rollback_shared_cell_example :
  (s ← transactional_writes example_env example_cell
         [WriteField k32Bits 2000 12 1 false; WriteElement 2000 0 2]
         (initial true 1100, fun _ => 7);
   r ← Rollback example_env s.1;
   Some (r.2, heap_calls example_cell s.2 r.2.*2 2012))
  = Some ([(true, SetField32 false 2000 12 7);
           (true, SetWithoutChecks kPrimInt 2000 0 1)], 1).
Proof. vm_compute. reflexivity. Qed.

(** ** The locations a rollback writes *)

Lemma NoDup_omap_flat_map {P C L K : Type} (l : list P) (F : P -> list C)
    (g : C -> option L) (kp : P -> K) (kl : L -> K) :
  NoDup (kp <$> l) ->
  (forall p, p ∈ l -> NoDup (omap g (F p))) ->
  (forall p c loc, p ∈ l -> c ∈ F p -> g c = Some loc -> kl loc = kp p) ->
  NoDup (omap g (flat_map F l)).
Proof.
  induction l as [|p l IH]; intros Hnd Hin Hkey; [constructor|].
  rewrite fmap_cons in Hnd. apply NoDup_cons in Hnd as [Hp Hnd].
  simpl. rewrite omap_app. apply NoDup_app. split; [|split].
  - apply Hin. by left.
  - intros loc Hl1 Hl2.
    apply list_elem_of_omap in Hl1 as (c1 & Hc1 & Hg1).
    apply list_elem_of_omap in Hl2 as (c2 & Hc2 & Hg2).
    apply list_elem_of_In, in_flat_map in Hc2 as (p' & Hp' & Hc2).
    apply list_elem_of_In in Hp', Hc2.
    apply Hp. rewrite <- (Hkey p c1 loc) by (done || by left).
    rewrite (Hkey p' c2 loc) by (done || by right).
    by apply list_elem_of_fmap_2.
  - apply IH; [done| |].
    + intros p' Hp'. apply Hin. by right.
    + intros p' c loc Hp'. apply Hkey. by right.
Qed.

Lemma mapM_flat_map {A B : Type} (f : A -> option B) (l : list A)
    (k : list B) :
  mapM f l = Some k -> k = flat_map (fun x => option_list (f x)) l.
Proof.
  intros H. apply mapM_Some in H.
  induction H as [|x y l k Hf _ IH]; [done|].
  simpl. rewrite Hf. simpl. by f_equal.
Qed.

Lemma mapM_concat {A B : Type} (f : A -> option (list B)) (l : list A)
    (k : list (list B)) :
  mapM f l = Some k -> concat k = flat_map (fun x => default [] (f x)) l.
Proof.
  intros H. apply mapM_Some in H.
  induction H as [|x y l k Hf _ IH]; [done|].
  simpl. rewrite Hf. simpl. by f_equal.
Qed.

Lemma NoDup_object_undo_locations (rt : Env) (logs : gmap Z ObjectLog.t) :
  NoDup (omap call_location (object_undo_calls rt logs)).
Proof.
  unfold object_undo_calls.
  apply (NoDup_omap_flat_map _ _ _ fst location_base).
  - apply NoDup_fst_entries.
  - intros [obj log] _. simpl. unfold ObjectLog.Undo.
    apply (NoDup_omap_flat_map _ _ _ fst location_index).
    + apply NoDup_fst_entries.
    + intros [off fv] _. unfold ObjectLog.UndoEntry. simpl.
      destruct (off =? ClassOffset rt); [constructor|].
      destruct (IsArrayInstance rt obj && (off =? LengthOffset rt));
        [constructor|].
      simpl. rewrite call_location_UndoFieldWrite. apply NoDup_singleton.
    + intros [off fv] c loc _ Hc%elem_of_UndoEntry. destruct Hc as [_ ->].
      rewrite call_location_UndoFieldWrite. by intros [= <-].
  - intros [obj log] c loc _ Hc. simpl in *.
    apply elem_of_ObjectLog_Undo in Hc as (off & fv & _ & _ & ->).
    rewrite call_location_UndoFieldWrite. by intros [= <-].
Qed.

Lemma NoDup_array_undo_locations (rt : Env) (logs : gmap Z ArrayLog.t)
    (calls : list Call) :
  array_undo_calls rt logs = Some calls ->
  NoDup (omap call_location calls).
Proof.
  unfold array_undo_calls. intros H.
  apply bind_Some in H as (per_array & Hm & [= <-]).
  rewrite (mapM_concat _ _ _ Hm).
  apply (NoDup_omap_flat_map _ _ _ fst location_base).
  - apply NoDup_fst_entries.
  - intros [array log] _. simpl.
    destruct (ArrayLog.Undo rt log array) as [cs|] eqn:Hu; [|constructor].
    simpl. unfold ArrayLog.Undo in Hu.
    do 2 apply bind_Some in Hu as (_ & _ & Hu).
    rewrite (mapM_flat_map _ _ _ Hu).
    apply (NoDup_omap_flat_map _ _ _ fst location_index).
    + apply NoDup_fst_entries.
    + intros [index raw] _. simpl.
      destruct (ArrayLog.UndoArrayWrite _ _ _ _) as [c|] eqn:Hw;
        [|constructor].
      simpl. rewrite (call_location_UndoArrayWrite _ _ _ _ _ Hw).
      apply NoDup_singleton.
    + intros [index raw] c loc _ Hc. simpl in Hc.
      destruct (ArrayLog.UndoArrayWrite _ _ _ _) as [c'|] eqn:Hw;
        [|by apply elem_of_nil in Hc].
      apply list_elem_of_singleton in Hc as ->.
      rewrite (call_location_UndoArrayWrite _ _ _ _ _ Hw). by intros [= <-].
  - intros [array log] c loc _ Hc. simpl in *.
    destruct (ArrayLog.Undo rt log array) as [cs|] eqn:Hu;
      [|by apply elem_of_nil in Hc].
    simpl in Hc.
    apply (elem_of_ArrayLog_Undo _ _ _ _ c Hu) in Hc as (index & raw & _ & Hw).
    rewrite (call_location_UndoArrayWrite _ _ _ _ _ Hw). by intros [= <-].
Qed.

Lemma omap_nil {A B : Type} (f : A -> option B) (l : list A) :
  Forall (fun x => f x = None) l -> omap f l = [].
Proof.
  induction 1 as [|x l Hx _ IH]; [done|]. simpl. by rewrite Hx.
Qed.

Lemma NoDup_omap {A B : Type} (f : A -> option B) (l : list A) :
  (forall x y z, f x = Some z -> f y = Some z -> x = y) ->
  NoDup l -> NoDup (omap f l).
Proof.
  intros Hinj. induction 1 as [|x l Hx _ IH]; [constructor|].
  simpl. destruct (f x) as [z|] eqn:Hz; [|done].
  constructor; [|done].
  intros (y & Hy & Hfy)%list_elem_of_omap.
  by rewrite (Hinj x y z Hz Hfy) in Hx.
Qed.

Lemma omap_call_field (calls : list Call) :
  omap call_field calls
  = omap (fun loc => match loc with
                     | FieldLocation obj offset => Some (obj, offset)
                     | ElementLocation _ _ => None
                     end)
         (omap call_location calls).
Proof.
  induction calls as [|c calls IH]; [done|].
  destruct c; cbn; by rewrite IH.
Qed.

Lemma omap_call_element (calls : list Call) :
  omap call_element calls
  = omap (fun loc => match loc with
                     | FieldLocation _ _ => None
                     | ElementLocation array index => Some (array, index)
                     end)
         (omap call_location calls).
Proof.
  induction calls as [|c calls IH]; [done|].
  destruct c; cbn; by rewrite IH.
Qed.

Lemma NoDup_undo_locations (rt : Env) (t t' : Transaction)
    (events : list Event) :
  Rollback rt t = Some (t', events) ->
  NoDup (omap call_location events.*2).
Proof.
  intros Hr.
  apply Rollback_Some in Hr
    as (_ & _ & arrays & strings & Ha & Hs & -> & _).
  rewrite <- list_fmap_compose. unfold compose. simpl. rewrite list_fmap_id.
  rewrite !omap_app.
  rewrite (omap_nil _ strings), (omap_nil _ (resolve_undo_calls _)).
  - rewrite !app_nil_r. apply NoDup_app. split; [|split].
    + apply NoDup_object_undo_locations.
    + intros loc Hl1 Hl2.
      apply list_elem_of_omap in Hl1 as (c1 & Hc1 & Hg1).
      apply list_elem_of_omap in Hl2 as (c2 & Hc2 & Hg2).
      apply elem_of_object_undo_calls in Hc1 as (obj & log & _ & Hc1).
      apply elem_of_ObjectLog_Undo in Hc1 as (off & fv & _ & _ & ->).
      apply (elem_of_array_undo_calls _ _ _ _ Ha) in Hc2
        as (array & alog & index & raw & _ & _ & Hw).
      rewrite call_location_UndoFieldWrite in Hg1.
      rewrite (call_location_UndoArrayWrite _ _ _ _ _ Hw) in Hg2.
      congruence.
    + by eapply NoDup_array_undo_locations.
  - apply Forall_forall. intros c Hc. unfold resolve_undo_calls in Hc.
    by apply list_elem_of_fmap in Hc as (log & -> & _).
  - apply Forall_forall. intros c Hc.
    apply (elem_of_intern_undo_calls _ _ _ _ Hs) in Hc as (log & _ & Hu).
    apply InternStringLog_Undo_intern in Hu as (_ & Hf & He).
    unfold call_location. by rewrite Hf, He.
Qed.

(** X16.  A rollback writes a field or an element only if it has an entry,
    with the call that undoes that entry; it writes no class slot and no
    length slot of an array instance; it writes no field (an object and an
    offset) twice, and no element (an array and an index) twice. *)
Theorem Rollback_writes_logged_once
    (rt : Env) (t t' : Transaction) (events : list Event) :
  Rollback rt t = Some (t', events) ->
  (forall ev loc,
     ev ∈ events -> call_location ev.2 = Some loc ->
     exists e, entry_at t loc = Some e /\ undo_call rt loc e = Some ev.2) /\
  (forall ev obj offset,
     ev ∈ events -> call_location ev.2 = Some (FieldLocation obj offset) ->
     ~ protected_slot rt obj offset) /\
  NoDup (omap call_field events.*2) /\
  NoDup (omap call_element events.*2).
Proof.
  intros Hr.
  assert (Hlogged : forall ev loc,
            ev ∈ events -> call_location ev.2 = Some loc ->
            exists e, entry_at t loc = Some e /\
                      undo_call rt loc e = Some ev.2).
  { intros ev loc Hev Hl.
    destruct (Rollback_calls _ _ _ _ _ Hr Hev)
      as (_ & [(obj & log & offset & fv & Hlo & Hf & Hp & Hcall)
              |[(array & log & index & raw & Hlo & Hf & Hcall)|Hnone]]).
    - rewrite Hcall, call_location_UndoFieldWrite in Hl.
      injection Hl as <-. exists (FieldEntry fv). split.
      + apply entry_at_field. by exists log, fv.
      + rewrite Hcall. by apply undo_call_field.
    - rewrite (call_location_UndoArrayWrite _ _ _ _ _ Hcall) in Hl.
      injection Hl as <-. exists (ElementEntry raw). split; [|done].
      apply entry_at_element. by exists log, raw.
    - congruence. }
  split; [done|]. split; [|split].
  - intros ev obj offset Hev Hl.
    destruct (Hlogged ev _ Hev Hl) as (e & He & Hu).
    destruct e as [fv|raw]; [|done].
    by apply undo_call_field in Hu as [Hp _].
  - rewrite omap_call_field. apply NoDup_omap.
    + intros [] [] z; congruence.
    + by eapply NoDup_undo_locations.
  - rewrite omap_call_element. apply NoDup_omap.
    + intros [] [] z; congruence.
    + by eapply NoDup_undo_locations.
Qed.

Lemma Rollback_writes_logged_once_witness :
  exists (t' : Transaction) (events : list Event),
    Rollback example_env example_transaction = Some (t', events) /\
    NoDup (omap call_field events.*2) /\
    NoDup (omap call_element events.*2).
Proof.
  exists (rolled_back example_transaction),
         [(true, SetField32 false 1200 8 0);
          (true, SetWithoutChecks kPrimInt 2000 3 7);
          (true, InsertStrongFromTransaction 3000);
          (true, RemoveStrongFromTransaction 3000);
          (true, ClearString 4000 5)].
  split; [vm_compute; reflexivity|].
  apply (Rollback_writes_logged_once example_env example_transaction
           (rolled_back example_transaction)).
  vm_compute. reflexivity.
Defined.

(** ** Witnesses of the undo of one entry and of the return of a visit *)

Lemma ObjectLog_log_then_undo_witness :
  ObjectLog.Undo example_env (LogValueOfKind kByte 12 (-5) true ∅) 1200
  = [SetFieldOfKind kByte true 1200 12 (-5)].
Proof.
  apply (ObjectLog_log_then_undo example_env kByte 1200 12 (-5) true).
  - simpl. unfold Int.is_signed. simpl. lia.
  - unfold protected_slot. simpl. intros [|[]]; lia.
Defined.

Lemma ArrayLog_log_then_undo_witness :
  ArrayLog.Undo example_env (ArrayLog.LogValue 3 (Int.to_uint64 (-7)) ∅) 2000
  = Some [SetWithoutChecks (ComponentPrimitiveType example_env 2000)
            2000 3 (-7)].
Proof.
  apply (ArrayLog_log_then_undo example_env 2000 3 (-7)).
  - lia.
  - reflexivity.
  - simpl. unfold Int.is_signed. simpl. lia.
Defined.

Lemma VisitRoots_is_Some_witness :
  is_Some (VisitRoots example_env (fun root => root + 10000)
             example_transaction).
Proof.
  apply (VisitRoots_is_Some example_env (fun root => root + 10000)
           example_transaction).
  - split.
    + intros k [x Hk] _. simpl in Hk.
      apply lookup_singleton_Some in Hk as [<- _]. reflexivity.
    + intros k1 k2 _ _ H. lia.
  - split.
    + intros k [x Hk] _. simpl in Hk.
      apply lookup_singleton_Some in Hk as [<- _]. reflexivity.
    + intros k1 k2 _ _ H. lia.
  - intros array _. reflexivity.
Defined.

(** ** A rollback after a visit of the roots *)

(** X19.  After a visit of the roots that returns, a rollback undoes every field
    entry on the object at its new address, with the value the visit left in
    the entry, and every array entry on the array at its new address; it
    clears the slots of the dex caches at their new addresses.  The runtime
    answers for the objects where they are after the visit. *)
Theorem Rollback_after_VisitRoots
    (rt : Env) (visitor : Z -> Z) (t t1 t2 : Transaction)
    (events : list Event) :
  VisitRoots rt visitor t = Some t1 ->
  Rollback rt t1 = Some (t2, events) ->
  (forall obj offset fv,
     entry_at t (FieldLocation obj offset) = Some (FieldEntry fv) ->
     ~ protected_slot rt (visitor obj) offset ->
     (true, ObjectLog.UndoFieldWrite (visitor obj) offset
              (mkFieldValue (visited_value visitor fv) (kind fv)
                            (is_volatile fv))) ∈ events) /\
  (forall array index raw c,
     entry_at t (ElementLocation array index) = Some (ElementEntry raw) ->
     ArrayLog.UndoArrayWrite (visitor array)
       (ComponentPrimitiveType rt (visitor array)) index raw = Some c ->
     (true, c) ∈ events) /\
  filter (fun c => is_dex_cache_call c = true) events.*2
  = map (fun log => ClearString (visitor (ResolveStringLog.dex_cache_ log))
                                (ResolveStringLog.string_idx_ log))
        (resolve_string_logs_ t).
Proof.
  intros Hv Hr. destruct (VisitRoots_entry_at _ _ _ _ Hv) as [Hf He].
  split; [|split].
  - intros obj offset fv Hentry Hp.
    destruct (Rollback_undoes_entry _ _ _ _ _ _ Hr (Hf _ _ _ Hentry))
      as [Hin _].
    apply Hin. by apply undo_call_field.
  - intros array index raw c Hentry Hc.
    destruct (Rollback_undoes_entry _ _ _ _ _ _ Hr (He _ _ _ Hentry))
      as [Hin _].
    by apply Hin.
  - apply VisitRoots_Some in Hv as (_ & _ & _ & _ & Hlogs).
    rewrite (Rollback_dex_cache_calls _ _ _ _ Hr), Hlogs.
    rewrite map_map. apply map_ext. by intros [].
Qed.

Lemma Rollback_after_VisitRoots_witness :
  (true, ObjectLog.UndoFieldWrite (moving_visitor 1200) 8
           (mkFieldValue
              (visited_value moving_visitor
                 (mkFieldValue 1300 kReference false))
              kReference false))
  ∈ [(true, SetFieldObject false 1150 8 1200);
     (true, SetField32 false 1200 12 7);
     (true, SetWithoutChecks kPrimInt 2500 3 7)].
Proof.
  destruct (Rollback_after_VisitRoots example_env_moved moving_visitor
              moving_transaction moved_transaction
              (rolled_back moved_transaction)
              [(true, SetFieldObject false 1150 8 1200);
               (true, SetField32 false 1200 12 7);
               (true, SetWithoutChecks kPrimInt 2500 3 7)])
    as (Hf & _).
  - vm_compute. reflexivity.
  - vm_compute. reflexivity.
  - apply (Hf 1200 8 (mkFieldValue 1300 kReference false)).
    + vm_compute. reflexivity.
    + unfold protected_slot. simpl. intros [|[]]; lia.
Defined.

Lemma Rollback_returns_witness :
  is_Some (Rollback example_env example_transaction) /\
  ~ is_Some (Rollback example_env_active example_transaction).
Proof.
  split.
  - apply (Rollback_returns example_env example_transaction).
    + split; [|split; [|split]].
      * intros obj [log Hl]. simpl in Hl.
        apply lookup_singleton_Some in Hl as [<- _]. lia.
      * intros array [log Hl]. simpl in Hl.
        apply lookup_singleton_Some in Hl as [<- _].
        split; [lia|reflexivity].
      * simpl. repeat constructor. simpl. lia.
      * intros _. simpl. lia.
    + split; [reflexivity|]. split; [reflexivity|].
      intros array log Hl _. simpl in Hl.
      apply lookup_singleton_Some in Hl as [<- _]. reflexivity.
  - intros H.
    apply (Rollback_returns example_env_active example_transaction) in H.
    + destruct H as (_ & Hact & _). discriminate Hact.
    + split; [|split; [|split]].
      * intros obj [log Hl]. simpl in Hl.
        apply lookup_singleton_Some in Hl as [<- _]. lia.
      * intros array [log Hl]. simpl in Hl.
        apply lookup_singleton_Some in Hl as [<- _].
        split; [lia|reflexivity].
      * simpl. repeat constructor. simpl. lia.
      * intros _. simpl. lia.
Defined.
